(** * Streaming pattern replacement: [transform/replacer.go]

    A shallow embedding of the [Replacer] transformer, of its replacement
    history and of the table-driven [ReplaceAll] pipeline, together with the
    properties of the chunked [Transform] call.

    Go's [int] is modelled as [Z]; every quantity below is a length or an
    offset into a slice held in one address space, so sums of two of them
    stay below 2^63 and no wrap-around can occur.  Byte slices are
    [list byte]; a slice expression whose bounds are out of range, and a
    remainder by zero, are run-time panics and are modelled as [Panic].
    [dst] and [src] are separate values: a call whose two slices share
    memory is outside the model.  The index a caller hands to a table's
    [At] is any [int]; the products [i*2] and [i*2+1] are formed in [Z],
    which is Go's wrapping arithmetic exactly for [-2^62 <= i < 2^62], and
    nothing is stated about [At] outside that range.
    The rune-backed constructor and table only differ from the string-backed
    ones by the UTF-8 encoding of their arguments and are left out. *)

From Stdlib Require Import ZArith List Bool Lia.
From Stdlib Require Strings.String Strings.Byte.
Import Stdlib.Init.Byte.
Import ListNotations.

Local Open Scope Z_scope.

(** ** Outcomes of Go code: a value, a run-time panic, or fuel exhausted
    (the last only arises from the bounded unrolling of [for { ... }]). *)

Inductive outcome (A : Type) : Type :=
| Ok (a : A)
| Panic
| OutOfFuel.

Arguments Ok {A} a.
Arguments Panic {A}.
Arguments OutOfFuel {A}.

Definition bind {A B : Type} (m : outcome A) (k : A -> outcome B) : outcome B :=
  match m with
  | Ok a => k a
  | Panic => Panic
  | OutOfFuel => OutOfFuel
  end.

Notation "x <- m ;; k" := (bind m (fun x => k))
  (at level 61, m at next level, right associativity).
Notation "' pat <- m ;; k" := (bind m (fun x => match x with pat => k end))
  (at level 61, pat pattern, m at next level, right associativity).

(** ** Slices, [copy], and the two functions of package [bytes] that the
    replacer calls *)

Definition len {A : Type} (s : list A) : Z := Z.of_nat (length s).

(** [s[a:]].  Go checks slice bounds against the capacity; the model checks
    them against the length, which is never larger, so a slice expression
    that is in range here is in range there. *)
Definition slice_from {A : Type} (s : list A) (a : Z) : outcome (list A) :=
  if (0 <=? a) && (a <=? len s)
  then Ok (skipn (Z.to_nat a) s)
  else Panic.

(** [s[a:b]] *)
Definition slice {A : Type} (s : list A) (a b : Z) : outcome (list A) :=
  if (0 <=? a) && (a <=? b) && (b <=? len s)
  then Ok (firstn (Z.to_nat (b - a)) (skipn (Z.to_nat a) s))
  else Panic.

(** [s[i]] *)
Definition index {A : Type} (s : list A) (i : Z) : outcome A :=
  if (0 <=? i) && (i <? len s)
  then match nth_error s (Z.to_nat i) with
       | Some x => Ok x
       | None => Panic
       end
  else Panic.

(** [a % b] on Go ints: truncated remainder, panics when [b] is zero. *)
Definition go_rem (a b : Z) : outcome Z :=
  if b =? 0 then Panic else Ok (Z.rem a b).

(** [copy(dst[off:], x)]: the destination slice shares its array with [dst],
    so the bytes land in [dst] at offset [off]; the count is the smaller of
    the two lengths.  Returns the updated [dst] and the count. *)
Definition copy_at (dst : list byte) (off : Z) (x : list byte)
  : outcome (list byte * Z) :=
  d <- slice_from dst off ;;
  let m := Z.min (len d) (len x) in
  Ok (firstn (Z.to_nat off) dst ++ firstn (Z.to_nat m) x ++ skipn (Z.to_nat m) d, m).

(** [bytes.HasPrefix(s, prefix)] *)
Fixpoint HasPrefix (s prefix : list byte) {struct prefix} : bool :=
  match prefix with
  | [] => true
  | p :: prefix' =>
      match s with
      | [] => false
      | b :: s' => Byte.eqb b p && HasPrefix s' prefix'
      end
  end.

(** [bytes.Index(s, sep)]: the index of the first instance of [sep] in [s],
    or [-1] when there is none. *)
Fixpoint Index (s sep : list byte) : Z :=
  if HasPrefix s sep then 0
  else match s with
       | [] => -1
       | _ :: s' => let j := Index s' sep in
                    if j =? -1 then -1 else 1 + j
       end.

(** ** ReplaceHistory *)

Record ReplaceHistory : Type := mkHistory {
  src0 : list Z;
  src1 : list Z;
  dst0 : list Z;
  dst1 : list Z
}.

Definition NewReplaceHistory : ReplaceHistory := mkHistory [] [] [] [].

(** A [*ReplaceHistory]: [None] is the nil pointer.  [add] on a nil
    receiver returns at once. *)
Definition add (h : option ReplaceHistory) (s0 s1 d0 d1 : Z)
  : option ReplaceHistory :=
  match h with
  | None => None
  | Some h =>
      Some (mkHistory (src0 h ++ [s0]) (src1 h ++ [s1])
                      (dst0 h ++ [d0]) (dst1 h ++ [d1]))
  end.

(** [h.At(index)] *)
Definition At (h : ReplaceHistory) (i : Z) : outcome (Z * Z * Z * Z) :=
  a <- index (src0 h) i ;;
  b <- index (src1 h) i ;;
  c <- index (dst0 h) i ;;
  d <- index (dst1 h) i ;;
  Ok (a, b, c, d).

(** ** Replacer *)

Inductive error : Type := ErrShortSrc | ErrShortDst.

Record Replacer : Type := mkReplacer {
  old : list byte;
  new : list byte;
  history : option ReplaceHistory
}.

Definition NewReplacer (o n : list byte) (h : option ReplaceHistory) : Replacer :=
  mkReplacer o n h.

Definition Replace (o n : list byte) : Replacer := NewReplacer o n None.

Definition ReplaceString (o n : String.string) : Replacer :=
  Replace (String.list_byte_of_string o) (String.list_byte_of_string n).

(** What a [Transform] call leaves behind: the destination buffer, the named
    results [nDst], [nSrc], [err], and the history the replacer points to.
    The same record is the loop state of the call. *)
Record result : Type := mkResult {
  r_dst : list byte;
  nDst : Z;
  nSrc : Z;
  err : option error;
  r_history : option ReplaceHistory
}.

Inductive flow : Type :=
| Continue (st : result)
| Return (st : result).

(** One pass through the body of the [for] loop (lines 106-139). *)
Definition Transform_body (o n src : list byte) (atEOF : bool) (st : result)
  : outcome flow :=
  let dst := r_dst st in
  let nD := nDst st in
  let nS := nSrc st in
  rest <- slice_from src nS ;;
  let i := Index rest o in
  if i =? -1 then
    let n0 := len rest in
    boundary <- go_rem (len rest) (len o) ;;
    '(cnt, e) <-
      (if negb atEOF && negb (boundary =? 0) then
         tail <- slice_from src (len src - boundary) ;;
         if HasPrefix o tail
         then Ok (n0 - boundary, Some ErrShortDst)
         else Ok (n0, err st)
       else Ok (n0, err st)) ;;
    d <- slice_from dst nD ;;
    if len d <? cnt then
      Ok (Return (mkResult dst nD nS
                    (if nD =? 0 then Some ErrShortDst else e)
                    (r_history st)))
    else
      s <- slice src nS (nS + cnt) ;;
      '(dst', m) <- copy_at dst nD s ;;
      Ok (Return (mkResult dst' (nD + m) (nS + m) e (r_history st)))
  else
    d <- slice_from dst nD ;;
    if len d <? i + len n then
      Ok (Return (mkResult dst nD nS
                    (if nD =? 0 then Some ErrShortDst else err st)
                    (r_history st)))
    else
      s <- slice src nS (nS + i) ;;
      '(dst1', c1) <- copy_at dst nD s ;;
      let nD1 := nD + c1 in
      let h' := add (r_history st) (nS + i) (nS + i + len o) nD1 (nD1 + len n) in
      '(dst2', c2) <- copy_at dst1' nD1 n ;;
      Ok (Continue (mkResult dst2' (nD1 + c2) (nS + (i + len o)) (err st) h')).

(** The [for] loop, unrolled at most [fuel] times. *)
Fixpoint Transform_loop (fuel : nat) (o n src : list byte) (atEOF : bool)
  (st : result) : outcome result :=
  match fuel with
  | O => OutOfFuel
  | S fuel' =>
      f <- Transform_body o n src atEOF st ;;
      match f with
      | Continue st' => Transform_loop fuel' o n src atEOF st'
      | Return res => Ok res
      end
  end.

(** [r.Transform(dst, src, atEOF)].  Every pass of the loop that does not
    return advances [nSrc] by at least one byte, so one more pass than
    [src] has bytes is enough fuel ([Transform_loop_fuel] below). *)
Definition Transform (r : Replacer) (dst src : list byte) (atEOF : bool)
  : outcome result :=
  let st := mkResult dst 0 0 None (history r) in
  if len src <? len (old r) then
    Ok (mkResult dst 0 0 (if atEOF then None else Some ErrShortSrc) (history r))
  else if len (old r) =? 0 then
    '(dst', c) <- copy_at dst 0 src ;;
    Ok (mkResult dst' (0 + c) (0 + c) None (history r))
  else
    Transform_loop (S (length src)) (old r) (new r) src atEOF st.

(** ** Replace tables and [ReplaceAll] *)

(** [[]byte(s)] *)
Definition bytes_of_string (s : String.string) : list byte :=
  String.list_byte_of_string s.

(** The [ReplaceTable] interface. *)
Class ReplaceTable (T : Type) : Type := {
  table_At : T -> Z -> outcome (list byte * list byte);
  table_Len : T -> Z
}.

Definition ReplaceByteTable : Type := list (list byte).

Definition ReplaceByteTable_Add (t : ReplaceByteTable) (o n : list byte)
  : ReplaceByteTable := t ++ [o; n].

(** [At] reads [t[i*2]] and [t[i*2+1]].  The two index expressions are
    formed in [Z]; for [-2^62 <= i < 2^62], and so for every index below
    [Len()] of a table that fits in a slice, they are what Go computes.
    Beyond that range Go's product wraps around and [At] reads other
    elements than these; the development states nothing there. *)
#[export] Instance ByteTable : ReplaceTable ReplaceByteTable := {
  table_At t i :=
    o <- index t (i * 2) ;;
    n <- index t (i * 2 + 1) ;;
    Ok (o, n);
  table_Len t := Z.quot (len t) 2
}.

Definition ReplaceStringTable : Type := list String.string.

Definition ReplaceStringTable_Add (t : ReplaceStringTable) (o n : String.string)
  : ReplaceStringTable := t ++ [o; n].

#[export] Instance StringTable : ReplaceTable ReplaceStringTable := {
  table_At t i :=
    o <- index t (i * 2) ;;
    n <- index t (i * 2 + 1) ;;
    Ok (bytes_of_string o, bytes_of_string n);
  table_Len t := Z.quot (len t) 2
}.

(** The loop of [ReplaceAll]: [rs[i] = Replace(t.At(i))] for [i] from the
    given index, [k] more times. *)
Fixpoint ReplaceAll_stages {T : Type} `{ReplaceTable T} (t : T) (k : nat) (i : Z)
  : outcome (list Replacer) :=
  match k with
  | O => Ok []
  | S k' =>
      '(o, n) <- table_At t i ;;
      rs <- ReplaceAll_stages t k' (i + 1) ;;
      Ok (Replace o n :: rs)
  end.

(** Modelled from the spec: the size of the buffer between two stages of
    the chain, which the spec leaves open; 4096 is what x/text allocates. *)
Definition defaultBufSize : nat := 4096.

(** Modelled from the spec: [transform.Chain] of golang.org/x/text, which
    [ReplaceAll] calls and whose code is not part of this repository.  The
    spec says the composer "chains them so stage k's emitted destination
    bytes become stage k+1's source bytes, applied strictly in table order".
    The model makes one pass: every stage but the last writes into a buffer
    of [defaultBufSize] bytes, the bytes it produced are the source of the
    next stage, and the last stage writes into [dst].  The call reports the
    bytes the last stage produced, the bytes the first stage consumed, and
    the first status that is not nil.  A chain of no stages copies. *)
Fixpoint Chain_Transform (rs : list Replacer) (dst src : list byte) (atEOF : bool)
  : outcome (list byte * Z * Z * option error) :=
  match rs with
  | [] =>
      '(dst', c) <- copy_at dst 0 src ;;
      Ok (dst', c, c, if c <? len src then Some ErrShortDst else None)
  | r :: rs' =>
      match rs' with
      | [] =>
          res <- Transform r dst src atEOF ;;
          Ok (r_dst res, nDst res, nSrc res, err res)
      | _ :: _ =>
          res <- Transform r (repeat x00 defaultBufSize) src atEOF ;;
          mid <- slice (r_dst res) 0 (nDst res) ;;
          '(dst', nD, _, e') <- Chain_Transform rs' dst mid atEOF ;;
          Ok (dst', nD, nSrc res,
              match err res with Some e => Some e | None => e' end)
      end
  end.

(** [ReplaceAll(t)]: the replacers of the chain it returns.  [make] panics
    on a negative length. *)
Definition ReplaceAll {T : Type} `{ReplaceTable T} (t : T) : outcome (list Replacer) :=
  if table_Len t <? 0 then Panic
  else ReplaceAll_stages t (Z.to_nat (table_Len t)) 0.

(** ** Reference notions the properties are stated against *)

(** Non-streaming replace-all, leftmost match first, matches not
    overlapping: walking [s] from the left, a position where [o] begins is
    replaced by [n] and the remaining [length o - 1] bytes of the match are
    skipped. *)
Fixpoint replace_from (o n s : list byte) (skip : nat) : list byte :=
  match s with
  | [] => []
  | b :: s' =>
      match skip with
      | S k => replace_from o n s' k
      | O => if HasPrefix s o
             then n ++ replace_from o n s' (length o - 1)
             else b :: replace_from o n s' 0
      end
  end.

Definition replace_all (o n s : list byte) : list byte := replace_from o n s 0.

(** The number of positions of [s] at which [o] begins. *)
Fixpoint occurrences (o s : list byte) : nat :=
  ((if HasPrefix s o then 1 else 0) +
   match s with
   | [] => 0
   | _ :: s' => occurrences o s'
   end)%nat.

(** The bytes a call produced: [dst[:nDst]]. *)
Definition produced (res : result) : outcome (list byte) :=
  slice (r_dst res) 0 (nDst res).

(** A destination buffer of [cap] bytes. *)
Definition make (cap : nat) : list byte := repeat x00 cap.

(** The whole source in one call at end of input. *)
Definition feed_whole (r : Replacer) (cap : nat) (src : list byte)
  : outcome (list byte) :=
  res <- Transform r (make cap) src true ;;
  produced res.

(** The source in two calls, split at offset [k]: the first piece not at
    end of input, then what the first call left unconsumed followed by the
    second piece, at end of input.  The outputs are concatenated. *)
Definition feed_split (r : Replacer) (cap : nat) (src : list byte) (k : nat)
  : outcome (list byte) :=
  let p1 := firstn k src in
  let p2 := skipn k src in
  r1 <- Transform r (make cap) p1 false ;;
  out1 <- produced r1 ;;
  carry <- slice_from p1 (nSrc r1) ;;
  r2 <- Transform (mkReplacer (old r) (new r) (r_history r1))
                  (make cap) (carry ++ p2) true ;;
  out2 <- produced r2 ;;
  Ok (out1 ++ out2).

(** One [Transform] call of a stream: its buffers and flag. *)
Record call : Type := mkCall {
  c_dst : list byte;
  c_src : list byte;
  c_atEOF : bool
}.

(** The history after a sequence of calls on one replacer. *)
Fixpoint run_calls (o n : list byte) (h : option ReplaceHistory) (cs : list call)
  : outcome (option ReplaceHistory) :=
  match cs with
  | [] => Ok h
  | c :: cs' =>
      res <- Transform (NewReplacer o n h) (c_dst c) (c_src c) (c_atEOF c) ;;
      run_calls o n (r_history res) cs'
  end.

(** What a caller observes of a call besides the history. *)
Definition observable (res : result) : list byte * Z * Z * option error :=
  (r_dst res, nDst res, nSrc res, err res).

(** ** Notions used in the proofs *)

(** [dst] with [x] written at offset [off]. *)
Definition splice (dst : list byte) (off : Z) (x : list byte) : list byte :=
  firstn (Z.to_nat off) dst ++ x ++ skipn (Z.to_nat (off + len x)) dst.

(** The cursors of a loop state lie inside the two buffers. *)
Definition in_bounds (src : list byte) (st : result) : Prop :=
  0 <= nSrc st <= len src /\ 0 <= nDst st <= len (r_dst st).

(** Whether the pass that finds no further match holds back the tail
    bytes, and how many bytes it then wants to copy. *)
Definition withheld (o src : list byte) (atEOF : bool) (nS : Z) : bool :=
  let boundary := Z.rem (len src - nS) (len o) in
  negb atEOF && negb (boundary =? 0) &&
  HasPrefix o (skipn (Z.to_nat (len src - boundary)) src).

Definition tail_count (o src : list byte) (atEOF : bool) (nS : Z) : Z :=
  if withheld o src atEOF nS
  then (len src - nS) - Z.rem (len src - nS) (len o)
  else len src - nS.

(** [st'] comes after [st] in a call: the cursors have not moved back, the
    buffer has kept its length, the bytes already produced are unchanged and
    so are the bytes beyond the new cursor. *)
Definition extends (st st' : result) : Prop :=
  len (r_dst st') = len (r_dst st) /\
  nDst st <= nDst st' /\ nSrc st <= nSrc st' /\
  skipn (Z.to_nat (nDst st')) (r_dst st') = skipn (Z.to_nat (nDst st')) (r_dst st) /\
  firstn (Z.to_nat (nDst st)) (r_dst st') = firstn (Z.to_nat (nDst st)) (r_dst st).

Definition omap {A B : Type} (g : A -> B) (m : outcome A) : outcome B :=
  match m with
  | Ok a => Ok (g a)
  | Panic => Panic
  | OutOfFuel => OutOfFuel
  end.

Definition observable_flow (f : flow) : bool * (list byte * Z * Z * option error) :=
  match f with
  | Continue st => (true, observable st)
  | Return st => (false, observable st)
  end.

(** [reach o n src atEOF st st']: the loop entered at [st] comes round to
    [st'] after some number of passes. *)
Inductive reach (o n src : list byte) (atEOF : bool) : result -> result -> Prop :=
| reach_here (st : result) : reach o n src atEOF st st
| reach_pass (st st1 st2 : result) :
    Transform_body o n src atEOF st = Ok (Continue st1) ->
    reach o n src atEOF st1 st2 ->
    reach o n src atEOF st st2.

(** The records of a history, one tuple per entry. *)
Definition entry : Type := (Z * Z * Z * Z)%type.

Fixpoint entries_of (a b c d : list Z) : list entry :=
  match a, b, c, d with
  | x :: a', y :: b', z :: c', w :: d' => (x, y, z, w) :: entries_of a' b' c' d'
  | _, _, _, _ => []
  end.

Definition entries (h : ReplaceHistory) : list entry :=
  entries_of (src0 h) (src1 h) (dst0 h) (dst1 h).

(** The four slices of a history have one length. *)
Definition aligned (h : ReplaceHistory) : Prop :=
  length (src1 h) = length (src0 h) /\
  length (dst0 h) = length (src0 h) /\
  length (dst1 h) = length (src0 h).

(** The coordinate law of one entry: the source span is as long as [old],
    the destination span as long as [new]. *)
Definition lawful (o n : list byte) (e : entry) : Prop :=
  let '(a, b, c, d) := e in
  b - a = len o /\ d - c = len n /\ a < b /\ c <= d.

(** Entries in increasing order in both coordinate spaces, none starting
    below [(ls, ld)]. *)
Fixpoint ordered_from (ls ld : Z) (es : list entry) : Prop :=
  match es with
  | [] => True
  | (a, b, c, d) :: es' => ls <= a /\ ld <= c /\ a <= b /\ c <= d /\ ordered_from b d es'
  end.

(** Where the last of the entries ends. *)
Fixpoint ends_at (ls ld : Z) (es : list entry) : Z * Z :=
  match es with
  | [] => (ls, ld)
  | (_, b, _, d) :: es' => ends_at b d es'
  end.

(** What holds of the history while a call runs: the entries present at the
    start of the call are still in front; those added since obey the
    coordinate law, are ordered, and end at or before the two cursors. *)
Definition history_inv (o n : list byte) (before : list entry) (st : result)
  : Prop :=
  exists h recs,
    r_history st = Some h /\ aligned h /\ entries h = before ++ recs /\
    Forall (lawful o n) recs /\ ordered_from 0 0 recs /\
    fst (ends_at 0 0 recs) <= nSrc st /\ snd (ends_at 0 0 recs) <= nDst st.

(** ** The claims that fail, as the specification words them *)

(** The claim of C5 as written: whenever the loop finds a match for which
    the destination has no room, the call reports [ErrShortDst]. *)
Definition short_at_match_claim (o n : list byte) (h : option ReplaceHistory)
  (dst src : list byte) (atEOF : bool) : Prop :=
  forall st, reach o n src atEOF (mkResult dst 0 0 None h) st ->
    Index (skipn (Z.to_nat (nSrc st)) src) o <> -1 ->
    len (r_dst st) - nDst st < Index (skipn (Z.to_nat (nSrc st)) src) o + len n ->
    exists res, Transform (NewReplacer o n h) dst src atEOF = Ok res /\
      nDst res = nDst st /\ nSrc res = nSrc st /\ err res = Some ErrShortDst.

(** The claim of C6 as written, for a history [h]. *)
Definition ledger_claim (o n : list byte) (h : ReplaceHistory) : Prop :=
  forall i a b c d, At h i = Ok (a, b, c, d) ->
    b - a = len o /\ d - c = len n /\
    forall a' b' c' d', At h (i + 1) = Ok (a', b', c', d') ->
      a < b /\ b <= a' /\ c < d /\ d <= c'.

(** The claim of C7 as written, for one call. *)
Definition starved_claim (r : Replacer) (src : list byte) (atEOF : bool) : Prop :=
  src <> [] ->
  exists res, Transform r [] src atEOF = Ok res /\
    err res = Some ErrShortDst /\ nSrc res = 0 /\ nDst res = 0.

(** ** The rest of the history and of the tables *)

(** The visitor handed to [Iterate]: a Go closure, so it may keep state of
    its own; [St] is that state, the boolean says whether to go on. *)
Definition visitor (St : Type) : Type := Z -> Z -> Z -> Z -> St -> bool * St.

(** The [for i := range h.src0] loop of [Iterate], [k] more rounds from
    index [i]. *)
Fixpoint Iterate_loop {St : Type} (h : ReplaceHistory) (f : visitor St)
  (k : nat) (i : Z) (s : St) : outcome St :=
  match k with
  | O => Ok s
  | S k' =>
      a <- index (src0 h) i ;;
      b <- index (src1 h) i ;;
      c <- index (dst0 h) i ;;
      d <- index (dst1 h) i ;;
      let '(go_on, s') := f a b c d s in
      if go_on then Iterate_loop h f k' (i + 1) s' else Ok s'
  end.

(** [h.Iterate(f)]; a nil receiver returns at once. *)
Definition Iterate {St : Type} (h : option ReplaceHistory) (f : visitor St) (s : St)
  : outcome St :=
  match h with
  | None => Ok s
  | Some h => Iterate_loop h f (length (src0 h)) 0 s
  end.

(** [r.Reset()] does nothing. *)
Definition Reset (r : Replacer) : Replacer := r.

(** Visiting a list of entries in order until the visitor says stop. *)
Fixpoint visit {St : Type} (f : visitor St) (es : list entry) (s : St) : St :=
  match es with
  | [] => s
  | (a, b, c, d) :: es' =>
      let '(go_on, s') := f a b c d s in
      if go_on then visit f es' s' else s'
  end.

(** The offsets at which [o] is matched by a leftmost, non-overlapping scan
    of [s], the first byte of [s] being at offset [pos]. *)
Fixpoint match_from (o s : list byte) (skip : nat) (pos : Z) : list Z :=
  match s with
  | [] => []
  | _ :: s' =>
      match skip with
      | S k => match_from o s' k (pos + 1)
      | O => if HasPrefix s o
             then pos :: match_from o s' (length o - 1) (pos + 1)
             else match_from o s' 0 (pos + 1)
      end
  end.

Definition match_positions (o s : list byte) : list Z := match_from o s 0 0.

(** A byte table and a string table filled by [Add], rule after rule. *)
Definition byte_table_of (rules : list (list byte * list byte)) : ReplaceByteTable :=
  fold_left (fun t r => ReplaceByteTable_Add t (fst r) (snd r)) rules [].

Definition string_table_of (rules : list (String.string * String.string))
  : ReplaceStringTable :=
  fold_left (fun t r => ReplaceStringTable_Add t (fst r) (snd r)) rules [].

(** Entries that locate replacements: the source span holds [o], the
    destination span, which ends at or before [nD], holds [n], and the
    [k]-th entry of a call is shifted by [k] times the length difference. *)
Fixpoint recorded (o n src dst : list byte) (nD k : Z) (es : list entry) : Prop :=
  match es with
  | [] => True
  | (a, b, c, d) :: es' =>
      slice src a b = Ok o /\ slice dst c d = Ok n /\ d <= nD /\
      c - a = k * (len n - len o) /\
      recorded o n src dst nD (k + 1) es'
  end.

(** What holds of the entries a call has added so far. *)
Definition ledger_inv (o n src : list byte) (before : list entry) (st : result)
  : Prop :=
  exists h recs,
    r_history st = Some h /\ aligned h /\ entries h = before ++ recs /\
    recorded o n src (r_dst st) (nDst st) 0 recs /\
    nDst st - nSrc st = len recs * (len n - len o).

(** * Properties *)

(** ** Lists, slices and [copy] *)

Lemma len_nonneg {A : Type} (s : list A) : 0 <= len s.
Proof. unfold len; lia. Qed.

Lemma len_app {A : Type} (s t : list A) : len (s ++ t) = len s + len t.
Proof. unfold len; rewrite length_app; lia. Qed.

Lemma len_skipn {A : Type} (s : list A) (k : Z) :
  0 <= k <= len s -> len (skipn (Z.to_nat k) s) = len s - k.
Proof. unfold len; intros; rewrite length_skipn; lia. Qed.

Lemma len_firstn {A : Type} (s : list A) (k : Z) :
  0 <= k <= len s -> len (firstn (Z.to_nat k) s) = k.
Proof. unfold len; intros; rewrite length_firstn; lia. Qed.

Lemma slice_from_ok {A : Type} (s : list A) (a : Z) :
  0 <= a <= len s -> slice_from s a = Ok (skipn (Z.to_nat a) s).
Proof.
  intros [H0 H1]; unfold slice_from.
  apply Z.leb_le in H0, H1; now rewrite H0, H1.
Qed.

Lemma slice_ok {A : Type} (s : list A) (a b : Z) :
  0 <= a <= b -> b <= len s ->
  slice s a b = Ok (firstn (Z.to_nat (b - a)) (skipn (Z.to_nat a) s)).
Proof.
  intros [H0 H1] H2; unfold slice.
  apply Z.leb_le in H0, H1, H2; now rewrite H0, H1, H2.
Qed.

Lemma firstn_exact {A : Type} (a b : list A) (k : nat) :
  k = length a -> firstn k (a ++ b) = a.
Proof.
  intros ->; rewrite firstn_app, Nat.sub_diag, firstn_all; cbn.
  apply app_nil_r.
Qed.

Lemma skipn_past {A : Type} (a b : list A) (k : nat) :
  (length a <= k)%nat -> skipn k (a ++ b) = skipn (k - length a) b.
Proof.
  intros H; rewrite skipn_app, (skipn_all2 a) by exact H; reflexivity.
Qed.

Lemma copy_at_fits (dst : list byte) (off : Z) (x : list byte) :
  0 <= off -> off + len x <= len dst ->
  copy_at dst off x = Ok (splice dst off x, len x).
Proof.
  intros H0 H1; pose proof (len_nonneg x) as Hx.
  unfold copy_at; rewrite slice_from_ok by lia; cbn [bind].
  rewrite len_skipn by lia.
  replace (Z.min (len dst - off) (len x)) with (len x) by lia.
  unfold splice; f_equal; f_equal; f_equal; f_equal.
  - unfold len; rewrite Nat2Z.id; apply firstn_all.
  - rewrite skipn_skipn; f_equal; lia.
Qed.

Lemma len_splice (dst : list byte) (off : Z) (x : list byte) :
  0 <= off -> off + len x <= len dst -> len (splice dst off x) = len dst.
Proof.
  intros H0 H1; pose proof (len_nonneg x).
  unfold splice; rewrite !len_app, len_firstn, len_skipn; lia.
Qed.

Lemma firstn_splice (dst : list byte) (off : Z) (x : list byte) :
  0 <= off -> off + len x <= len dst ->
  firstn (Z.to_nat (off + len x)) (splice dst off x)
  = firstn (Z.to_nat off) dst ++ x.
Proof.
  intros H0 H1; pose proof (len_nonneg x).
  unfold splice; rewrite app_assoc; apply firstn_exact.
  rewrite length_app, length_firstn; unfold len in *; lia.
Qed.

Lemma skipn_splice (dst : list byte) (off : Z) (x : list byte) (k : Z) :
  0 <= off -> off + len x <= k -> k <= len dst ->
  skipn (Z.to_nat k) (splice dst off x) = skipn (Z.to_nat k) dst.
Proof.
  intros H0 H1 H2; pose proof (len_nonneg x).
  unfold splice; rewrite app_assoc, skipn_past.
  - rewrite skipn_skipn; f_equal.
    rewrite length_app, length_firstn; unfold len in *; lia.
  - rewrite length_app, length_firstn; unfold len in *; lia.
Qed.

Lemma firstn_before_splice (dst : list byte) (off : Z) (x : list byte) (k : Z) :
  0 <= k <= off -> off + len x <= len dst ->
  firstn (Z.to_nat k) (splice dst off x) = firstn (Z.to_nat k) dst.
Proof.
  intros H0 H1; pose proof (len_nonneg x).
  unfold splice; rewrite firstn_app, firstn_firstn, length_firstn.
  replace (Z.to_nat k - Nat.min (Z.to_nat off) (length dst))%nat with 0%nat
    by (unfold len in *; lia).
  cbn; rewrite app_nil_r; f_equal; lia.
Qed.

Lemma splice_splice (dst : list byte) (off : Z) (x y : list byte) :
  0 <= off -> off + len x + len y <= len dst ->
  splice (splice dst off x) (off + len x) y = splice dst off (x ++ y).
Proof.
  intros H0 H1; pose proof (len_nonneg x); pose proof (len_nonneg y).
  unfold splice at 1.
  rewrite firstn_splice, skipn_splice by lia.
  unfold splice; rewrite len_app, <- !app_assoc.
  do 4 f_equal; lia.
Qed.

(** ** [bytes.HasPrefix] and [bytes.Index] *)

Lemma HasPrefix_app (s p : list byte) :
  HasPrefix s p = true <-> exists t, s = p ++ t.
Proof.
  revert s; induction p as [|a p IH]; intros s; cbn.
  - split; [intros _; now exists s | reflexivity].
  - destruct s as [|b s].
    + split; [discriminate | intros [t Ht]; discriminate].
    + rewrite andb_true_iff, IH; split.
      * intros [Hb [t ->]]; apply Byte.byte_dec_bl in Hb; subst; now exists t.
      * intros [t Ht]; injection Ht as -> ->; split.
        -- now apply Byte.byte_dec_lb.
        -- now exists t.
Qed.

Lemma HasPrefix_len (s p : list byte) :
  HasPrefix s p = true -> len p <= len s.
Proof.
  intros [t ->]%HasPrefix_app; rewrite len_app; pose proof (len_nonneg t); lia.
Qed.

Lemma HasPrefix_nil_l (p : list byte) : p <> [] -> HasPrefix [] p = false.
Proof. destruct p; [congruence | reflexivity]. Qed.

Lemma Index_range (s sep : list byte) :
  Index s sep = -1 \/ (0 <= Index s sep /\ Index s sep + len sep <= len s).
Proof.
  induction s as [|b s IH]; cbn [Index].
  - destruct (HasPrefix [] sep) eqn:E; [right | now left].
    apply HasPrefix_len in E; lia.
  - destruct (HasPrefix (b :: s) sep) eqn:E.
    + right; apply HasPrefix_len in E; lia.
    + cbv zeta; destruct (Index s sep =? -1) eqn:E1; [now left | right].
      apply Z.eqb_neq in E1; unfold len in *; cbn [length]; lia.
Qed.

Lemma Index_found (s sep : list byte) :
  0 <= Index s sep -> HasPrefix (skipn (Z.to_nat (Index s sep)) s) sep = true.
Proof.
  induction s as [|b s IH]; cbn [Index].
  - destruct (HasPrefix [] sep) eqn:E; [intros _; exact E | lia].
  - destruct (HasPrefix (b :: s) sep) eqn:E; [intros _; exact E |].
    cbv zeta; destruct (Index s sep =? -1) eqn:E1; [lia |].
    apply Z.eqb_neq in E1; intros H.
    destruct (Index_range s sep) as [? | [H0 _]]; [contradiction |].
    replace (Z.to_nat (1 + Index s sep)) with (S (Z.to_nat (Index s sep))) by lia.
    cbn [skipn]; apply IH; exact H0.
Qed.

(** No instance of [sep] begins before the index [Index] returns, and none
    at all when it returns [-1]. *)
Lemma Index_first (s sep : list byte) (j : nat) :
  (Index s sep = -1 \/ Z.of_nat j < Index s sep) ->
  HasPrefix (skipn j s) sep = false.
Proof.
  revert j; induction s as [|b s IH]; intros j; cbn [Index].
  - rewrite skipn_nil; destruct (HasPrefix [] sep); [intros [H | H]; lia | reflexivity].
  - destruct (HasPrefix (b :: s) sep) eqn:E; [intros [H | H]; lia |].
    cbv zeta; destruct (Index s sep =? -1) eqn:E1.
    + apply Z.eqb_eq in E1; intros _; destruct j; [exact E |].
      cbn [skipn]; apply IH; now left.
    + apply Z.eqb_neq in E1; pose proof (Index_range s sep) as Hr.
      intros [H | H]; [lia |].
      destruct j; [exact E |]; cbn [skipn]; apply IH; right; lia.
Qed.

(** ** The reference replace-all *)

(** Matches do not overlap: in "aaa" the pattern "aa" is replaced once. *)
Example replace_all_leftmost :
  replace_all [x61; x61] [x62] [x61; x61; x61] = [x62; x61].
Proof. reflexivity. Qed.

Lemma replace_from_skip (o n s : list byte) (k : nat) :
  replace_from o n s k = replace_from o n (skipn k s) 0.
Proof.
  revert k; induction s as [|b s IH]; intros k.
  - now rewrite skipn_nil.
  - destruct k; [reflexivity |]; cbn [replace_from skipn]; apply IH.
Qed.

Lemma replace_all_none (o n s : list byte) :
  Index s o = -1 -> replace_all o n s = s.
Proof.
  unfold replace_all; induction s as [|b s IH]; [reflexivity |].
  cbn [Index replace_from].
  destruct (HasPrefix (b :: s) o); [discriminate |].
  cbv zeta; destruct (Index s o =? -1) eqn:E.
  - apply Z.eqb_eq in E; intros _; now rewrite IH.
  - apply Z.eqb_neq in E; pose proof (Index_range s o); lia.
Qed.

Lemma replace_all_found (o n s : list byte) :
  o <> [] -> 0 <= Index s o ->
  replace_all o n s
  = firstn (Z.to_nat (Index s o)) s ++ n ++
    replace_all o n (skipn (Z.to_nat (Index s o + len o)) s).
Proof.
  intros Ho; unfold replace_all; induction s as [|b s IH].
  - cbn [Index]; rewrite HasPrefix_nil_l by exact Ho; lia.
  - cbn [Index replace_from].
    destruct (HasPrefix (b :: s) o) eqn:E.
    + intros _; cbn [Z.to_nat firstn app]; f_equal.
      rewrite replace_from_skip; f_equal.
      destruct o as [|a o]; [congruence |].
      unfold len; cbn [length]; rewrite Z.add_0_l, Nat2Z.id.
      cbn [skipn]; f_equal; lia.
    + cbv zeta; destruct (Index s o =? -1) eqn:E1; [lia |].
      apply Z.eqb_neq in E1; intros H.
      destruct (Index_range s o) as [? | [H0 _]]; [contradiction |].
      pose proof (len_nonneg o).
      replace (Z.to_nat (1 + Index s o)) with (S (Z.to_nat (Index s o))) by lia.
      replace (Z.to_nat (1 + Index s o + len o))
        with (S (Z.to_nat (Index s o + len o))) by lia.
      cbn [firstn skipn app]; f_equal; apply IH; exact H0.
Qed.

(** ** Loop states *)

Lemma extends_refl (st : result) : extends st st.
Proof. unfold extends; repeat split; lia. Qed.

Lemma stopped_ok (src : list byte) (st : result) (e : option error) :
  in_bounds src st ->
  let res := mkResult (r_dst st) (nDst st) (nSrc st) e (r_history st) in
  in_bounds src res /\ extends st res.
Proof.
  intros Hb; split; [exact Hb |].
  unfold extends; cbn [r_dst nDst nSrc]; repeat split; lia.
Qed.

Lemma skipn_eq_more {A : Type} (s t : list A) (j k : nat) :
  (j <= k)%nat -> skipn j s = skipn j t -> skipn k s = skipn k t.
Proof.
  intros Hjk H; replace k with ((k - j) + j)%nat by lia.
  now rewrite <- !skipn_skipn, H.
Qed.

Lemma firstn_eq_less {A : Type} (s t : list A) (j k : nat) :
  (j <= k)%nat -> firstn k s = firstn k t -> firstn j s = firstn j t.
Proof.
  intros Hjk H.
  replace j with (Nat.min j k) by lia.
  now rewrite <- !firstn_firstn, H.
Qed.

Lemma extends_trans (a b c : result) :
  0 <= nDst a -> extends a b -> extends b c -> extends a c.
Proof.
  unfold extends; intros H0 (L1 & D1 & S1 & K1 & F1) (L2 & D2 & S2 & K2 & F2).
  repeat split; try lia.
  - rewrite K2; apply (skipn_eq_more _ _ (Z.to_nat (nDst b))); [lia | exact K1].
  - rewrite <- F1; apply (firstn_eq_less _ _ _ (Z.to_nat (nDst b))); [lia | exact F2].
Qed.

Lemma extends_splice (st : result) (x : list byte) (nD nS : Z)
  (e : option error) (h : option ReplaceHistory) :
  0 <= nDst st -> nD = nDst st + len x -> nD <= len (r_dst st) ->
  nSrc st <= nS ->
  extends st (mkResult (splice (r_dst st) (nDst st) x) nD nS e h).
Proof.
  intros H0 -> H1 H2; pose proof (len_nonneg x).
  unfold extends; cbn [r_dst nDst nSrc]; repeat split; try lia.
  - now apply len_splice.
  - apply skipn_splice; lia.
  - apply firstn_before_splice; lia.
Qed.

Lemma len_pos_of_nonempty (o : list byte) : o <> [] -> 0 < len o.
Proof. destruct o; [congruence | unfold len; cbn; lia]. Qed.

(** ** One pass of the loop *)

Section Loop.

Variables (o n src : list byte) (atEOF : bool).
Hypothesis Ho : o <> [].

Lemma tail_count_range (nS : Z) :
  0 <= nS <= len src ->
  0 <= tail_count o src atEOF nS <= len src - nS.
Proof using Ho.
  intros H; unfold tail_count.
  pose proof (len_pos_of_nonempty o Ho).
  pose proof (Z.rem_le (len src - nS) (len o)).
  pose proof (Z.rem_bound_pos (len src - nS) (len o)).
  destruct (withheld o src atEOF nS); lia.
Qed.

Lemma body_notfound (st : result) :
  in_bounds src st ->
  Index (skipn (Z.to_nat (nSrc st)) src) o = -1 ->
  let cnt := tail_count o src atEOF (nSrc st) in
  let e := if withheld o src atEOF (nSrc st) then Some ErrShortDst else err st in
  Transform_body o n src atEOF st =
  Ok (Return
        (if len (r_dst st) - nDst st <? cnt
         then mkResult (r_dst st) (nDst st) (nSrc st)
                (if nDst st =? 0 then Some ErrShortDst else e) (r_history st)
         else mkResult
                (splice (r_dst st) (nDst st)
                   (firstn (Z.to_nat cnt) (skipn (Z.to_nat (nSrc st)) src)))
                (nDst st + cnt) (nSrc st + cnt) e (r_history st))).
Proof using Ho.
  intros [HS HD] Hi cnt e.
  pose proof (tail_count_range (nSrc st) HS) as Hc.
  fold cnt in Hc.
  pose proof (len_pos_of_nonempty o Ho) as Hlo.
  pose proof (Z.rem_le (len src - nSrc st) (len o)) as Hr1.
  pose proof (Z.rem_bound_pos (len src - nSrc st) (len o)) as Hr2.
  unfold Transform_body.
  rewrite slice_from_ok by exact HS; cbn [bind]; rewrite Hi; cbn [Z.eqb Pos.eqb].
  unfold go_rem; replace (len o =? 0) with false by (symmetry; apply Z.eqb_neq; lia).
  cbn [bind]; rewrite len_skipn by exact HS.
  assert (Hpair :
    (if negb atEOF && negb (Z.rem (len src - nSrc st) (len o) =? 0)
     then tail <- slice_from src (len src - Z.rem (len src - nSrc st) (len o)) ;;
          (if HasPrefix o tail
           then Ok (len src - nSrc st - Z.rem (len src - nSrc st) (len o),
                    Some ErrShortDst)
           else Ok (len src - nSrc st, err st))
     else Ok (len src - nSrc st, err st)) = Ok (cnt, e)).
  { subst cnt e; unfold tail_count, withheld.
    destruct (negb atEOF && negb (Z.rem (len src - nSrc st) (len o) =? 0));
      [| reflexivity].
    rewrite slice_from_ok by lia; cbn [bind andb].
    destruct (HasPrefix o _); reflexivity. }
  rewrite Hpair; cbn [bind].
  rewrite slice_from_ok by exact HD; cbn [bind]; rewrite len_skipn by exact HD.
  destruct (len (r_dst st) - nDst st <? cnt) eqn:E; [reflexivity |].
  apply Z.ltb_ge in E.
  rewrite slice_ok by lia; cbn [bind].
  replace (nSrc st + cnt - nSrc st) with cnt by lia.
  assert (Hl : len (firstn (Z.to_nat cnt) (skipn (Z.to_nat (nSrc st)) src)) = cnt).
  { apply len_firstn; rewrite len_skipn by exact HS; lia. }
  rewrite copy_at_fits by lia; cbn [bind]; rewrite Hl; reflexivity.
Qed.

Lemma body_found (st : result) :
  in_bounds src st ->
  Index (skipn (Z.to_nat (nSrc st)) src) o <> -1 ->
  let i := Index (skipn (Z.to_nat (nSrc st)) src) o in
  Transform_body o n src atEOF st =
  Ok (if len (r_dst st) - nDst st <? i + len n
      then Return (mkResult (r_dst st) (nDst st) (nSrc st)
                     (if nDst st =? 0 then Some ErrShortDst else err st)
                     (r_history st))
      else Continue
             (mkResult
                (splice (r_dst st) (nDst st)
                   (firstn (Z.to_nat i) (skipn (Z.to_nat (nSrc st)) src) ++ n))
                (nDst st + i + len n) (nSrc st + (i + len o)) (err st)
                (add (r_history st) (nSrc st + i) (nSrc st + i + len o)
                   (nDst st + i) (nDst st + i + len n)))).
Proof using Type.
  intros [HS HD] Hi i.
  destruct (Index_range (skipn (Z.to_nat (nSrc st)) src) o) as [? | [Hi0 Hi1]];
    [contradiction |].
  fold i in Hi0, Hi1; rewrite len_skipn in Hi1 by exact HS.
  pose proof (len_nonneg o) as Hlo; pose proof (len_nonneg n) as Hln.
  unfold Transform_body.
  rewrite slice_from_ok by exact HS; cbn [bind]; fold i.
  replace (i =? -1) with false by (symmetry; apply Z.eqb_neq; exact Hi).
  rewrite slice_from_ok by exact HD; cbn [bind]; rewrite len_skipn by exact HD.
  destruct (len (r_dst st) - nDst st <? i + len n) eqn:E; [reflexivity |].
  apply Z.ltb_ge in E.
  rewrite slice_ok by lia; cbn [bind].
  replace (nSrc st + i - nSrc st) with i by lia.
  set (pre := firstn (Z.to_nat i) (skipn (Z.to_nat (nSrc st)) src)).
  assert (Hl : len pre = i).
  { apply len_firstn; rewrite len_skipn by exact HS; lia. }
  clearbody pre i.
  rewrite copy_at_fits by lia; cbn [bind].
  rewrite copy_at_fits by (rewrite ?len_splice; lia); cbn [bind].
  rewrite splice_splice by lia; rewrite Hl.
  do 2 f_equal; f_equal; lia.
Qed.

(** A pass from a state within bounds never panics; the state or result it
    yields is within bounds and extends the state it started from, and a
    pass that goes round again has consumed at least one source byte. *)
Lemma body_step (st : result) :
  in_bounds src st ->
  exists f, Transform_body o n src atEOF st = Ok f /\
    match f with
    | Return res => in_bounds src res /\ extends st res
    | Continue st' => in_bounds src st' /\ extends st st' /\ nSrc st < nSrc st'
    end.
Proof using Ho.
  intros Hb; pose proof Hb as [HS HD].
  pose proof (len_pos_of_nonempty o Ho) as Hlo; pose proof (len_nonneg n) as Hln.
  destruct (Z.eq_dec (Index (skipn (Z.to_nat (nSrc st)) src) o) (-1)) as [Hi | Hi].
  - rewrite (body_notfound st Hb Hi).
    pose proof (tail_count_range (nSrc st) HS) as Hc.
    eexists; split; [reflexivity |].
    destruct (len (r_dst st) - nDst st <? tail_count o src atEOF (nSrc st)) eqn:E.
    + apply stopped_ok; exact Hb.
    + apply Z.ltb_ge in E.
      set (x := firstn _ _).
      assert (Hx : len x = tail_count o src atEOF (nSrc st)).
      { apply len_firstn; rewrite len_skipn by exact HS; lia. }
      split.
      * unfold in_bounds; cbn [r_dst nDst nSrc]; rewrite len_splice by lia; lia.
      * apply extends_splice; lia.
  - rewrite (body_found st Hb Hi).
    destruct (Index_range (skipn (Z.to_nat (nSrc st)) src) o) as [? | [Hi0 Hi1]];
      [contradiction |].
    rewrite len_skipn in Hi1 by exact HS.
    eexists; split; [reflexivity |].
    set (i := Index _ _) in *.
    destruct (len (r_dst st) - nDst st <? i + len n) eqn:E.
    + apply stopped_ok; exact Hb.
    + apply Z.ltb_ge in E.
      set (x := firstn _ _ ++ n).
      assert (Hx : len x = i + len n).
      { unfold x; rewrite len_app, len_firstn; [lia |].
        rewrite len_skipn by exact HS; lia. }
      split; [| split].
      * unfold in_bounds; cbn [r_dst nDst nSrc]; rewrite len_splice by lia; lia.
      * apply extends_splice; lia.
      * cbn [nSrc]; lia.
Qed.

(** ** The loop *)

(** Fuel beyond the number of unconsumed source bytes is never used up: the
    loop returns, and what it returns is within bounds and extends the state
    it was entered with. *)
Lemma Transform_loop_fuel (fuel : nat) (st : result) :
  in_bounds src st -> len src - nSrc st < Z.of_nat fuel ->
  exists res, Transform_loop fuel o n src atEOF st = Ok res /\
              in_bounds src res /\ extends st res.
Proof using Ho.
  revert st; induction fuel as [|fuel IH]; intros st Hb Hf.
  - destruct Hb; lia.
  - cbn [Transform_loop].
    destruct (body_step st Hb) as (f & -> & Hf').
    cbn [bind]; destruct f as [st' | res].
    + destruct Hf' as (Hb' & He & Hlt).
      destruct (IH st' Hb') as (res & -> & Hb'' & He'); [lia |].
      exists res; split; [reflexivity | split; [exact Hb'' |]].
      apply (extends_trans st st' res); [apply Hb | exact He | exact He'].
    + exists res; split; [reflexivity | exact Hf'].
Qed.

Lemma Transform_loop_more_fuel (fuel fuel' : nat) (st : result) :
  in_bounds src st ->
  len src - nSrc st < Z.of_nat fuel -> len src - nSrc st < Z.of_nat fuel' ->
  Transform_loop fuel o n src atEOF st = Transform_loop fuel' o n src atEOF st.
Proof using Ho.
  revert fuel' st; induction fuel as [|fuel IH]; intros fuel' st Hb Hf Hf'.
  - destruct Hb; lia.
  - destruct fuel' as [|fuel']; [destruct Hb; lia |].
    cbn [Transform_loop].
    destruct (body_step st Hb) as (f & -> & Hs).
    cbn [bind]; destruct f as [st' | res]; [| reflexivity].
    destruct Hs as (Hb' & _ & Hlt); apply IH; [exact Hb' | lia | lia].
Qed.

End Loop.

(** ** The whole call *)

Lemma copy_at_min (dst : list byte) (off : Z) (x : list byte) :
  0 <= off <= len dst ->
  let m := Z.min (len dst - off) (len x) in
  copy_at dst off x = Ok (splice dst off (firstn (Z.to_nat m) x), m).
Proof.
  intros H m; pose proof (len_nonneg x) as Hx.
  unfold copy_at; rewrite slice_from_ok by exact H; cbn [bind].
  rewrite len_skipn by exact H; fold m.
  unfold splice; rewrite len_firstn by lia.
  rewrite skipn_skipn.
  replace (Z.to_nat m + Z.to_nat off)%nat with (Z.to_nat (off + m)) by lia.
  reflexivity.
Qed.

(** The call with an empty [old]: a copy of what fits, status nil. *)
Lemma Transform_empty_old (r : Replacer) (dst src : list byte) (atEOF : bool) :
  old r = [] ->
  let m := Z.min (len dst) (len src) in
  Transform r dst src atEOF
  = Ok (mkResult (splice dst 0 (firstn (Z.to_nat m) src)) m m None (history r)).
Proof.
  intros Ho m; unfold Transform; rewrite Ho.
  pose proof (len_nonneg src); pose proof (len_nonneg dst).
  replace (len src <? len []) with false
    by (symmetry; apply Z.ltb_ge; unfold len at 1; cbn; lia).
  cbn [len length Z.of_nat Z.eqb].
  rewrite copy_at_min by lia; cbn [bind].
  rewrite Z.sub_0_r; fold m; reflexivity.
Qed.

(** The call at end of input with a source shorter than [old]: nothing is
    consumed or produced and the status is nil. *)
Lemma Transform_short_at_EOF (r : Replacer) (dst src : list byte) :
  len src < len (old r) ->
  Transform r dst src true = Ok (mkResult dst 0 0 None (history r)).
Proof.
  intros H; unfold Transform; apply Z.ltb_lt in H; now rewrite H.
Qed.

(** Every call returns: no slice expression is out of range and the fuel
    suffices.  The result is within bounds and extends the initial state. *)
Lemma Transform_returns (r : Replacer) (dst src : list byte) (atEOF : bool) :
  exists res, Transform r dst src atEOF = Ok res /\
    in_bounds src res /\ extends (mkResult dst 0 0 None (history r)) res.
Proof.
  pose proof (len_nonneg src) as Hs; pose proof (len_nonneg dst) as Hd.
  assert (Hb0 : in_bounds src (mkResult dst 0 0 None (history r)))
    by (unfold in_bounds; cbn; lia).
  destruct (len src <? len (old r)) eqn:E.
  - unfold Transform; rewrite E; eexists; split; [reflexivity |].
    exact (stopped_ok src _ _ Hb0).
  - destruct (old r) as [|a o] eqn:Ho.
    + rewrite Transform_empty_old by exact Ho.
      eexists; split; [reflexivity |].
      set (m := Z.min (len dst) (len src)).
      assert (Hx : len (firstn (Z.to_nat m) src) = m) by (apply len_firstn; lia).
      split.
      * unfold in_bounds; cbn [r_dst nDst nSrc]; rewrite len_splice by lia; lia.
      * apply (extends_splice (mkResult dst 0 0 None (history r)));
          cbn [r_dst nDst nSrc]; lia.
    + unfold Transform; rewrite Ho, E.
      replace (len (a :: o) =? 0) with false
        by (symmetry; apply Z.eqb_neq; unfold len; cbn; lia).
      apply Transform_loop_fuel; [discriminate | exact Hb0 |].
      cbn [nSrc]; unfold len; lia.
Qed.

(** ** The history does not steer the call *)

Ltac step_binds :=
  repeat match goal with
    | |- context [bind ?m _] => destruct m; cbn [bind omap]
    | |- context [if ?b then _ else _] => destruct b
    | |- context [let (_, _) := ?p in _] => destruct p
    end.

Lemma body_observable (o n src : list byte) (atEOF : bool) (st st' : result) :
  observable st = observable st' ->
  omap observable_flow (Transform_body o n src atEOF st)
  = omap observable_flow (Transform_body o n src atEOF st').
Proof.
  destruct st as [d nD nS e h], st' as [d' nD' nS' e' h'].
  unfold observable; cbn [r_dst nDst nSrc err]; intros [= <- <- <- <-].
  unfold Transform_body; cbn [r_dst nDst nSrc err r_history].
  step_binds; reflexivity.
Qed.

Lemma body_keeps_nil (o n src : list byte) (atEOF : bool) (st : result) (f : flow) :
  r_history st = None -> Transform_body o n src atEOF st = Ok f ->
  match f with Continue a | Return a => r_history a = None end.
Proof.
  intros Hn; unfold Transform_body; rewrite Hn; cbn [add].
  step_binds; intros [= <-]; reflexivity.
Qed.

Lemma loop_observable (o n src : list byte) (atEOF : bool) (fuel : nat)
  (st st' : result) :
  observable st = observable st' ->
  omap observable (Transform_loop fuel o n src atEOF st)
  = omap observable (Transform_loop fuel o n src atEOF st').
Proof.
  revert st st'; induction fuel as [|fuel IH]; intros st st' Hobs; [reflexivity |].
  cbn [Transform_loop].
  pose proof (body_observable o n src atEOF st st' Hobs) as Hb.
  destruct (Transform_body o n src atEOF st) as [[a | a] | |],
           (Transform_body o n src atEOF st') as [[b | b] | |];
    cbn [omap observable_flow bind] in *; try discriminate; try reflexivity.
  - apply IH; congruence.
  - f_equal; congruence.
Qed.

Lemma loop_keeps_nil (o n src : list byte) (atEOF : bool) (fuel : nat)
  (st res : result) :
  r_history st = None -> Transform_loop fuel o n src atEOF st = Ok res ->
  r_history res = None.
Proof.
  revert st; induction fuel as [|fuel IH]; intros st Hn; [discriminate |].
  cbn [Transform_loop].
  destruct (Transform_body o n src atEOF st) as [f | |] eqn:E;
    cbn [bind]; try discriminate.
  pose proof (body_keeps_nil o n src atEOF st f Hn E) as Hf.
  destruct f as [a | a]; [apply IH; exact Hf | intros [= <-]; exact Hf].
Qed.

Lemma Transform_observable (o n : list byte) (h h' : option ReplaceHistory)
  (dst src : list byte) (atEOF : bool) :
  omap observable (Transform (NewReplacer o n h) dst src atEOF)
  = omap observable (Transform (NewReplacer o n h') dst src atEOF).
Proof.
  unfold Transform, NewReplacer; cbn [old new history].
  destruct (len src <? len o); [reflexivity |].
  destruct (len o =? 0).
  - destruct (copy_at dst 0 src) as [[d c] | |]; reflexivity.
  - apply loop_observable; reflexivity.
Qed.

Lemma Transform_keeps_nil (o n dst src : list byte) (atEOF : bool) (res : result) :
  Transform (Replace o n) dst src atEOF = Ok res -> r_history res = None.
Proof.
  unfold Transform, Replace, NewReplacer; cbn [old new history].
  destruct (len src <? len o); [intros [= <-]; reflexivity |].
  destruct (len o =? 0).
  - destruct (copy_at dst 0 src) as [[d c] | |]; cbn [bind];
      try discriminate; intros [= <-]; reflexivity.
  - apply loop_keeps_nil; reflexivity.
Qed.

(** ** The whole source in one call at end of input *)

Lemma withheld_atEOF (o src : list byte) (nS : Z) : withheld o src true nS = false.
Proof. reflexivity. Qed.

Lemma loop_whole (o n src : list byte) (fuel : nat) (st : result) :
  o <> [] -> in_bounds src st -> len src - nSrc st < Z.of_nat fuel ->
  let out := replace_all o n (skipn (Z.to_nat (nSrc st)) src) in
  len out <= len (r_dst st) - nDst st ->
  exists res, Transform_loop fuel o n src true st = Ok res /\
    nSrc res = len src /\ err res = err st /\
    nDst res = nDst st + len out /\
    firstn (Z.to_nat (nDst res)) (r_dst res)
    = firstn (Z.to_nat (nDst st)) (r_dst st) ++ out.
Proof.
  intros Ho; revert st; induction fuel as [|fuel IH]; intros st Hb Hf out Hcap.
  { destruct Hb; lia. }
  pose proof Hb as [HS HD]; pose proof (len_nonneg n) as Hln.
  pose proof (len_pos_of_nonempty o Ho) as Hlo.
  cbn [Transform_loop].
  set (rest := skipn (Z.to_nat (nSrc st)) src) in *.
  assert (Hrest : len rest = len src - nSrc st) by (apply len_skipn; exact HS).
  destruct (Z.eq_dec (Index rest o) (-1)) as [Hi | Hi].
  - rewrite (body_notfound o n src true Ho st Hb Hi); cbn [bind].
    unfold tail_count; rewrite withheld_atEOF.
    assert (Hout : out = rest) by (apply replace_all_none; exact Hi).
    rewrite Hout in Hcap |- *.
    replace (len (r_dst st) - nDst st <? len src - nSrc st) with false
      by (symmetry; apply Z.ltb_ge; lia).
    fold rest; rewrite <- Hrest.
    replace (firstn (Z.to_nat (len rest)) rest) with rest
      by (unfold len; rewrite Nat2Z.id; symmetry; apply firstn_all).
    eexists; split; [reflexivity |]; cbn [nSrc nDst err r_dst].
    repeat split; try lia.
    apply firstn_splice; lia.
  - rewrite (body_found o n src true st Hb Hi); cbn [bind]; fold rest.
    destruct (Index_range rest o) as [? | [Hi0 Hi1]]; [contradiction |].
    assert (Hout : out = firstn (Z.to_nat (Index rest o)) rest ++ n ++
                         replace_all o n (skipn (Z.to_nat (Index rest o + len o)) rest))
      by (apply replace_all_found; assumption).
    set (i := Index rest o) in *.
    set (pre := firstn (Z.to_nat i) rest) in *.
    assert (Hpre : len pre = i) by (apply len_firstn; lia).
    assert (Hnext : skipn (Z.to_nat (i + len o)) rest
                    = skipn (Z.to_nat (nSrc st + (i + len o))) src).
    { unfold rest; rewrite skipn_skipn; f_equal; lia. }
    rewrite Hnext in Hout.
    set (out' := replace_all o n (skipn (Z.to_nat (nSrc st + (i + len o))) src)) in *.
    assert (Hlen : len out = i + len n + len out')
      by (rewrite Hout, !len_app; lia).
    pose proof (len_nonneg out') as Hout'.
    replace (len (r_dst st) - nDst st <? i + len n) with false
      by (symmetry; apply Z.ltb_ge; lia).
    set (st' := mkResult _ _ _ _ _).
    assert (Hx : len (pre ++ n) = i + len n) by (rewrite len_app; lia).
    assert (Hb' : in_bounds src st').
    { unfold in_bounds, st'; cbn [r_dst nDst nSrc]; rewrite len_splice by lia; lia. }
    destruct (IH st' Hb') as (res & Hres & H1 & H2 & H3 & H4).
    + unfold st'; cbn [nSrc]; lia.
    + unfold st'; cbn [r_dst nDst nSrc]; fold out'; rewrite len_splice by lia; lia.
    + exists res; split; [exact Hres |].
      unfold st' in H2, H3, H4; cbn [r_dst nDst nSrc err] in H2, H3, H4.
      fold out' in H3, H4.
      repeat split; [exact H1 | exact H2 | lia |].
      rewrite H4, Hout.
      replace (nDst st + i + len n) with (nDst st + len (pre ++ n)) by lia.
      rewrite firstn_splice by lia.
      now rewrite <- !app_assoc.
Qed.

(** Whole-stream equivalence, for a source at least as long as [old]: with
    room for the whole result, one call at end of input consumes all of
    [src], reports nil, and produces the reference replace-all. *)
Lemma Transform_whole_stream (o n : list byte) (h : option ReplaceHistory)
  (dst src : list byte) :
  o <> [] -> len o <= len src -> len (replace_all o n src) <= len dst ->
  exists res, Transform (NewReplacer o n h) dst src true = Ok res /\
    nSrc res = len src /\ err res = None /\
    nDst res = len (replace_all o n src) /\
    produced res = Ok (replace_all o n src).
Proof.
  intros Ho Hlen Hcap; pose proof (len_pos_of_nonempty o Ho) as Hlo.
  pose proof (len_nonneg dst) as Hd; pose proof (len_nonneg src) as Hs.
  unfold Transform, NewReplacer; cbn [old new history].
  replace (len src <? len o) with false by (symmetry; apply Z.ltb_ge; lia).
  replace (len o =? 0) with false by (symmetry; apply Z.eqb_neq; lia).
  destruct (loop_whole o n src (S (length src)) (mkResult dst 0 0 None h) Ho)
    as (res & Hres & H1 & H2 & H3 & H4).
  - unfold in_bounds; cbn; lia.
  - cbn [nSrc]; unfold len; lia.
  - cbn [r_dst nDst nSrc Z.to_nat skipn]; lia.
  - cbn [r_dst nDst nSrc err Z.to_nat skipn firstn app] in *.
    exists res; split; [exact Hres |].
    rewrite Z.add_0_l in H3.
    pose proof (len_nonneg (replace_all o n src)) as Hr.
    destruct (Transform_loop_fuel o n src true Ho (S (length src))
                (mkResult dst 0 0 None h)) as (res' & Hres' & Hb & He).
    { unfold in_bounds; cbn; lia. }
    { cbn [nSrc]; unfold len; lia. }
    rewrite Hres in Hres'; injection Hres' as <-.
    repeat split; [exact H1 | exact H2 | exact H3 |].
    unfold produced; rewrite slice_ok by (destruct Hb; lia).
    rewrite Z.sub_0_r; cbn [Z.to_nat skipn]; now rewrite H4.
Qed.

(** ** States a call passes through *)

Lemma body_continue_err (o n src : list byte) (atEOF : bool) (st st' : result) :
  Transform_body o n src atEOF st = Ok (Continue st') -> err st' = err st.
Proof.
  unfold Transform_body; step_binds; intros [= <-]; reflexivity.
Qed.

Lemma reach_loop (o n src : list byte) (atEOF : bool) (st st' : result) :
  o <> [] -> reach o n src atEOF st st' -> in_bounds src st ->
  in_bounds src st' /\ err st' = err st /\
  forall fuel, len src - nSrc st < Z.of_nat fuel ->
    Transform_loop fuel o n src atEOF st = Transform_loop fuel o n src atEOF st'.
Proof.
  intros Ho; induction 1 as [st | st st1 st2 Hbody Hr IH]; intros Hb.
  - repeat split; apply Hb.
  - destruct (body_step o n src atEOF Ho st Hb) as (f & Hf & Hs).
    rewrite Hbody in Hf; injection Hf as <-.
    destruct Hs as (Hb1 & He & Hlt).
    destruct (IH Hb1) as (Hb2 & Herr & Hloop).
    split; [exact Hb2 |]; split.
    + rewrite Herr; apply (body_continue_err o n src atEOF); exact Hbody.
    + intros fuel Hf; destruct fuel as [|fuel]; [destruct Hb; lia |].
      rewrite <- Hloop by lia.
      transitivity (Transform_loop fuel o n src atEOF st1).
      * cbn [Transform_loop]; rewrite Hbody; reflexivity.
      * apply Transform_loop_more_fuel; [exact Ho | exact Hb1 | lia | lia].
Qed.

(** ** The history *)

Lemma entries_of_snoc (a b c d : list Z) (x y z w : Z) :
  length b = length a -> length c = length a -> length d = length a ->
  entries_of (a ++ [x]) (b ++ [y]) (c ++ [z]) (d ++ [w])
  = entries_of a b c d ++ [(x, y, z, w)].
Proof.
  revert b c d; induction a as [|x0 a IH]; intros [|y0 b] [|z0 c] [|w0 d];
    cbn [length]; try discriminate; intros H1 H2 H3; [reflexivity |].
  simpl; rewrite IH by lia; reflexivity.
Qed.

Lemma index_nth_error {A : Type} (s : list A) (i : Z) (x : A) :
  index s i = Ok x <-> 0 <= i /\ nth_error s (Z.to_nat i) = Some x.
Proof.
  unfold index; destruct (0 <=? i) eqn:E0; cbn [andb].
  - apply Z.leb_le in E0; destruct (i <? len s) eqn:E1.
    + destruct (nth_error s (Z.to_nat i)); split;
        try (intros [= ->]; now split); try discriminate;
        intros [_ H]; congruence.
    + apply Z.ltb_ge in E1; split; [discriminate |].
      intros [_ H].
      assert (Hn : nth_error s (Z.to_nat i) <> None) by congruence.
      apply nth_error_Some in Hn; unfold len in E1; lia.
  - apply Z.leb_gt in E0; split; [discriminate | lia].
Qed.

Lemma nth_error_entries_of (a b c d : list Z) (k : nat) (e : entry) :
  length b = length a -> length c = length a -> length d = length a ->
  nth_error (entries_of a b c d) k = Some e <->
  exists x y z w, e = (x, y, z, w) /\
    nth_error a k = Some x /\ nth_error b k = Some y /\
    nth_error c k = Some z /\ nth_error d k = Some w.
Proof.
  revert b c d k; induction a as [|x0 a IH]; intros [|y0 b] [|z0 c] [|w0 d] k;
    cbn [length]; try discriminate; intros H1 H2 H3.
  - cbn [entries_of]; destruct k; split; try discriminate;
      intros (x & y & z & w & _ & H & _); discriminate.
  - cbn [entries_of]; destruct k as [|k]; cbn [nth_error].
    + split.
      * intros [= <-]; now exists x0, y0, z0, w0.
      * intros (x & y & z & w & -> & [= ->] & [= ->] & [= ->] & [= ->]); reflexivity.
    + apply IH; lia.
Qed.

(** [At] reads the entries, given the four slices are aligned. *)
Lemma At_entries (h : ReplaceHistory) (i : Z) (e : entry) :
  aligned h ->
  At h i = Ok e <-> 0 <= i /\ nth_error (entries h) (Z.to_nat i) = Some e.
Proof.
  intros (H1 & H2 & H3); unfold At, entries.
  rewrite (nth_error_entries_of _ _ _ _ _ _ H1 H2 H3); split.
  - destruct (index (src0 h) i) as [x | |] eqn:Ex; cbn [bind]; try discriminate.
    destruct (index (src1 h) i) as [y | |] eqn:Ey; cbn [bind]; try discriminate.
    destruct (index (dst0 h) i) as [z | |] eqn:Ez; cbn [bind]; try discriminate.
    destruct (index (dst1 h) i) as [w | |] eqn:Ew; cbn [bind]; try discriminate.
    intros [= <-].
    apply index_nth_error in Ex, Ey, Ez, Ew.
    split; [apply Ex |]; exists x, y, z, w; intuition.
  - intros (H0 & x & y & z & w & -> & Hx & Hy & Hz & Hw).
    rewrite (proj2 (index_nth_error (src0 h) i x)) by (split; assumption).
    rewrite (proj2 (index_nth_error (src1 h) i y)) by (split; assumption).
    rewrite (proj2 (index_nth_error (dst0 h) i z)) by (split; assumption).
    rewrite (proj2 (index_nth_error (dst1 h) i w)) by (split; assumption).
    reflexivity.
Qed.

Lemma ordered_from_snoc (ls ld : Z) (es : list entry) (a b c d : Z) :
  ordered_from ls ld es ->
  fst (ends_at ls ld es) <= a -> snd (ends_at ls ld es) <= c ->
  a <= b -> c <= d ->
  ordered_from ls ld (es ++ [(a, b, c, d)]) /\
  ends_at ls ld (es ++ [(a, b, c, d)]) = (b, d).
Proof.
  revert ls ld; induction es as [|[[[a0 b0] c0] d0] es IH]; intros ls ld;
    cbn [ordered_from ends_at app fst snd].
  - intros _ H1 H2 H3 H4; repeat split; assumption.
  - intros (Ha & Hc & Hab & Hcd & Ho) H1 H2 H3 H4.
    destruct (IH b0 d0 Ho H1 H2 H3 H4) as [Ho' He].
    split; [repeat split; assumption | exact He].
Qed.

Lemma ordered_from_consecutive (ls ld : Z) (es : list entry) (k : nat)
  (a b c d a' b' c' d' : Z) :
  ordered_from ls ld es ->
  nth_error es k = Some (a, b, c, d) ->
  nth_error es (S k) = Some (a', b', c', d') ->
  b <= a' /\ d <= c'.
Proof.
  revert ls ld k; induction es as [|[[[a0 b0] c0] d0] es IH]; intros ls ld k;
    [destruct k; discriminate |].
  cbn [ordered_from]; intros (_ & _ & _ & _ & Ho).
  destruct k as [|k]; cbn [nth_error].
  - intros [= -> -> -> ->]; destruct es as [|[[[a1 b1] c1] d1] es];
      [discriminate |].
    cbn [nth_error ordered_from] in *; intros [= -> -> -> ->]; lia.
  - apply (IH b0 d0 k Ho).
Qed.

Lemma history_inv_later (o n : list byte) (before : list entry) (st st' : result) :
  history_inv o n before st -> r_history st' = r_history st ->
  nSrc st <= nSrc st' -> nDst st <= nDst st' ->
  history_inv o n before st'.
Proof.
  intros (h & recs & Hh & Ha & He & Hl & Ho & H1 & H2) Hh' HS HD.
  exists h, recs; rewrite Hh'; repeat split; try assumption; try apply Ha; lia.
Qed.

Lemma body_history (o n src : list byte) (atEOF : bool) (before : list entry)
  (st : result) (f : flow) :
  o <> [] -> in_bounds src st -> history_inv o n before st ->
  Transform_body o n src atEOF st = Ok f ->
  match f with Continue a | Return a => history_inv o n before a end.
Proof.
  intros Ho Hb Hinv; pose proof Hb as [HS HD].
  pose proof (len_pos_of_nonempty o Ho) as Hlo; pose proof (len_nonneg n) as Hln.
  destruct (Z.eq_dec (Index (skipn (Z.to_nat (nSrc st)) src) o) (-1)) as [Hi | Hi].
  - rewrite (body_notfound o n src atEOF Ho st Hb Hi); intros [= <-].
    pose proof (tail_count_range o src atEOF Ho (nSrc st) HS) as Hc.
    destruct (_ <? _); apply (history_inv_later o n before st);
      try exact Hinv; cbn [r_history nSrc nDst]; try reflexivity; lia.
  - rewrite (body_found o n src atEOF st Hb Hi); intros [= <-].
    destruct (Index_range (skipn (Z.to_nat (nSrc st)) src) o) as [? | [Hi0 Hi1]];
      [contradiction |].
    set (i := Index _ _) in *.
    destruct (_ <? _).
    + apply (history_inv_later o n before st);
        try exact Hinv; cbn [r_history nSrc nDst]; try reflexivity; lia.
    + destruct Hinv as (h & recs & Hh & (A1 & A2 & A3) & He & Hl & Hord & H1 & H2).
      destruct (ordered_from_snoc 0 0 recs (nSrc st + i) (nSrc st + i + len o)
                  (nDst st + i) (nDst st + i + len n) Hord) as [Hord' Hend];
        try lia.
      eexists; exists (recs ++ [(nSrc st + i, nSrc st + i + len o,
                                 nDst st + i, nDst st + i + len n)]).
      cbn [r_history nSrc nDst]; rewrite Hh; cbn [add].
      split; [reflexivity |]; split; [| split; [| split; [| split]]].
      * unfold aligned; cbn [src0 src1 dst0 dst1]; rewrite !length_app; cbn; lia.
      * unfold entries; cbn [src0 src1 dst0 dst1].
        rewrite entries_of_snoc by assumption.
        fold (entries h); rewrite He; now rewrite app_assoc.
      * apply Forall_app; split; [exact Hl |].
        constructor; [| constructor]; cbn; lia.
      * exact Hord'.
      * rewrite Hend; cbn [fst snd]; lia.
Qed.

Lemma loop_history (o n src : list byte) (atEOF : bool) (before : list entry)
  (fuel : nat) (st res : result) :
  o <> [] -> in_bounds src st -> history_inv o n before st ->
  Transform_loop fuel o n src atEOF st = Ok res ->
  history_inv o n before res.
Proof.
  intros Ho; revert st; induction fuel as [|fuel IH]; intros st Hb Hinv;
    [discriminate |].
  cbn [Transform_loop].
  destruct (body_step o n src atEOF Ho st Hb) as (f & Hf & Hs).
  pose proof (body_history o n src atEOF before st f Ho Hb Hinv Hf) as Hf'.
  rewrite Hf; cbn [bind]; destruct f as [a | a].
  - apply IH; [apply Hs | exact Hf'].
  - intros [= <-]; exact Hf'.
Qed.

(** One call on an aligned history appends entries that obey the law and
    are ordered among themselves. *)
Lemma Transform_history (o n : list byte) (h0 : ReplaceHistory)
  (dst src : list byte) (atEOF : bool) (res : result) :
  aligned h0 ->
  Transform (NewReplacer o n (Some h0)) dst src atEOF = Ok res ->
  exists h recs, r_history res = Some h /\ aligned h /\
    entries h = entries h0 ++ recs /\
    Forall (lawful o n) recs /\ ordered_from 0 0 recs.
Proof.
  intros Ha.
  assert (Hinv0 : forall d nD nS e, 0 <= nS -> 0 <= nD ->
            history_inv o n (entries h0) (mkResult d nD nS e (Some h0))).
  { intros d nD nS e H1 H2; exists h0, []; cbn [r_history nSrc nDst].
    rewrite app_nil_r; repeat split; try apply Ha; try assumption; constructor. }
  assert (Hfin : history_inv o n (entries h0) res ->
            exists h recs, r_history res = Some h /\ aligned h /\
              entries h = entries h0 ++ recs /\
              Forall (lawful o n) recs /\ ordered_from 0 0 recs).
  { intros (h & recs & H1 & H2 & H3 & H4 & H5 & _); exists h, recs; tauto. }
  unfold Transform, NewReplacer; cbn [old new history].
  destruct (len src <? len o); [intros [= <-]; apply Hfin, Hinv0; lia |].
  destruct (len o =? 0) eqn:E.
  - pose proof (len_nonneg dst); pose proof (len_nonneg src).
    rewrite copy_at_min by lia; cbn [bind]; intros [= <-].
    apply Hfin, Hinv0; lia.
  - intros Hres; apply Hfin.
    apply (loop_history o n src atEOF (entries h0) _ _ res) in Hres;
      [exact Hres | | | apply Hinv0; lia].
    + intros ->; discriminate.
    + unfold in_bounds; cbn; pose proof (len_nonneg dst);
        pose proof (len_nonneg src); lia.
Qed.

(** ** The history over a stream of calls *)

Lemma length_entries_of (a b c d : list Z) :
  length b = length a -> length c = length a -> length d = length a ->
  length (entries_of a b c d) = length a.
Proof.
  revert b c d; induction a as [|x a IH]; intros [|y b] [|z c] [|w d];
    cbn [length]; try discriminate; intros H1 H2 H3; [reflexivity |].
  simpl; rewrite IH by lia; reflexivity.
Qed.

Lemma length_entries (h : ReplaceHistory) :
  aligned h -> length (entries h) = length (src0 h).
Proof. intros (H1 & H2 & H3); now apply length_entries_of. Qed.

Lemma run_calls_app (o n : list byte) (h : option ReplaceHistory)
  (cs : list call) (c : call) :
  run_calls o n h (cs ++ [c])
  = (h' <- run_calls o n h cs ;; run_calls o n h' [c]).
Proof.
  revert h; induction cs as [|c0 cs IH]; intros h; [reflexivity |].
  cbn [app run_calls].
  destruct (Transform _ _ _ _) as [res | |]; cbn [bind]; [apply IH | | ];
    reflexivity.
Qed.

(** Over any sequence of calls an aligned history stays aligned, keeps the
    entries it had, and gains only entries that obey the coordinate law. *)
Lemma run_calls_history (o n : list byte) (h0 : ReplaceHistory) (cs : list call) :
  aligned h0 ->
  exists h recs, run_calls o n (Some h0) cs = Ok (Some h) /\ aligned h /\
    entries h = entries h0 ++ recs /\ Forall (lawful o n) recs.
Proof.
  revert h0; induction cs as [|c cs IH]; intros h0 Ha.
  - exists h0, []; rewrite app_nil_r; repeat split; try apply Ha; constructor.
  - cbn [run_calls].
    destruct (Transform_returns (NewReplacer o n (Some h0)) (c_dst c) (c_src c)
                (c_atEOF c)) as (res & Hres & _).
    rewrite Hres; cbn [bind].
    destruct (Transform_history o n h0 _ _ _ res Ha Hres)
      as (h1 & recs1 & Hh1 & Ha1 & He1 & Hl1 & _).
    rewrite Hh1.
    destruct (IH h1 Ha1) as (h & recs & Hrun & Ha' & He & Hl).
    exists h, (recs1 ++ recs); split; [exact Hrun |]; split; [exact Ha' |]; split.
    + now rewrite He, He1, app_assoc.
    + apply Forall_app; now split.
Qed.

(** ** A destination of no bytes *)

Lemma tail_count_pos (o src : list byte) (atEOF : bool) :
  o <> [] -> len o <= len src -> 1 <= tail_count o src atEOF 0.
Proof.
  intros Ho Hlen; pose proof (len_pos_of_nonempty o Ho) as Hlo.
  unfold tail_count; rewrite Z.sub_0_r.
  pose proof (Z.rem_bound_pos (len src) (len o)).
  destruct (withheld o src atEOF 0); lia.
Qed.

Import Stdlib.Strings.String.StringSyntax.
Local Open Scope string_scope.

(** * The claims *)

(** C1 (the code departs from the claim).  Whole-stream equivalence asks
    that one call at end of input consume all of [src] and produce the
    replace-all of [src].  With [old = "bc"] and [src = "a"] the reference
    result is ["a"], yet the call returns [nDst = 0], [nSrc = 0] and a nil
    status: the final byte is neither consumed nor copied.  For a source at
    least as long as [old] the claim holds ([Transform_whole_stream]). *)
Theorem whole_stream_short_final_chunk :
  Transform (ReplaceString "bc" "x") (make 4) (bytes_of_string "a") true
  = Ok (mkResult (make 4) 0 0 None None) /\
  replace_all (bytes_of_string "bc") (bytes_of_string "x") (bytes_of_string "a")
  = bytes_of_string "a".
Proof. split; reflexivity. Qed.

(** C2 (the code departs from the claim).  Boundary invariance asks that
    feeding a source with one occurrence of [old] in two pieces give the
    output of feeding it whole.  With [old = "ab"], [new = "X"],
    [src = "xxxabyy"] split at offset 4, the first call copies ["xxxa"]
    through (the tail length 4 is a multiple of [len old], so nothing is
    withheld) and the match across the seam is missed. *)
Theorem boundary_split_misses_match :
  occurrences (bytes_of_string "ab") (bytes_of_string "xxxabyy") = 1%nat /\
  feed_whole (ReplaceString "ab" "X") 16 (bytes_of_string "xxxabyy")
  = Ok (bytes_of_string "xxxXyy") /\
  feed_split (ReplaceString "ab" "X") 16 (bytes_of_string "xxxabyy") 4
  = Ok (bytes_of_string "xxxabyy").
Proof. repeat split; reflexivity. Qed.

(** C3.  When the call is not at end of input and [src] is shorter than
    [old], it consumes nothing, produces nothing, leaves [dst] and the
    history as they were, and reports [ErrShortSrc]. *)
Theorem short_source_not_at_EOF (r : Replacer) (dst src : list byte) :
  len src < len (old r) ->
  Transform r dst src false
  = Ok (mkResult dst 0 0 (Some ErrShortSrc) (history r)).
Proof.
  intros H; unfold Transform.
  apply Z.ltb_lt in H; rewrite H; reflexivity.
Qed.

Lemma short_source_not_at_EOF_witness :
  Transform (ReplaceString "ab" "X") (make 4) (bytes_of_string "a") false
  = Ok (mkResult (make 4) 0 0 (Some ErrShortSrc) None).
Proof.
  apply (short_source_not_at_EOF (ReplaceString "ab" "X") (make 4)
           (bytes_of_string "a")).
  vm_compute; reflexivity.
Defined.

(** C4 (the code departs from the claim).  With an empty [old] the call
    copies what fits and appends nothing to the history, as claimed, but
    when [dst] is shorter than [src] it reports nil, not [ErrShortDst]:
    here with a [dst] of no bytes, and with one of a single byte, for a
    source of two. *)
Theorem empty_old_short_destination :
  forall atEOF : bool,
    Transform (NewReplacer [] (bytes_of_string "x") (Some NewReplaceHistory))
      (make 0) (bytes_of_string "ab") atEOF
    = Ok (mkResult (make 0) 0 0 None (Some NewReplaceHistory)) /\
    Transform (NewReplacer [] (bytes_of_string "x") (Some NewReplaceHistory))
      (make 1) (bytes_of_string "ab") atEOF
    = Ok (mkResult (bytes_of_string "a") 1 1 None (Some NewReplaceHistory)).
Proof. intros [|]; split; reflexivity. Qed.

(** C5 (the code departs from the claim).  The claim asks for
    [ErrShortDst] whenever a match is found for which the destination has
    no room, also when bytes were already written in this call.  With
    [old = "a"], [new = "bb"], [src = "aa"] and three bytes of [dst], the
    first pass writes "bb" and comes round with [nDst = 2], [nSrc = 1]; the
    second pass finds the next match at offset 0, has one byte of room for
    two, and returns those counts with a nil status, one source byte left
    unconsumed: the guard [nDst == 0] of lines 131-133 keeps the status from
    being set.  The claim as written therefore fails at this input. *)
Theorem short_at_match_reports_nil :
  reach (bytes_of_string "a") (bytes_of_string "bb") (bytes_of_string "aa") true
    (mkResult (make 3) 0 0 None None)
    (mkResult (bytes_of_string "bb" ++ make 1) 2 1 None None) /\
  Index (skipn 1 (bytes_of_string "aa")) (bytes_of_string "a") = 0 /\
  len (bytes_of_string "bb" ++ make 1) - 2 < 0 + len (bytes_of_string "bb") /\
  Transform (NewReplacer (bytes_of_string "a") (bytes_of_string "bb") None)
    (make 3) (bytes_of_string "aa") true
  = Ok (mkResult (bytes_of_string "bb" ++ make 1) 2 1 None None) /\
  ~ short_at_match_claim (bytes_of_string "a") (bytes_of_string "bb") None
      (make 3) (bytes_of_string "aa") true.
Proof.
  assert (Hreach :
    reach (bytes_of_string "a") (bytes_of_string "bb") (bytes_of_string "aa") true
      (mkResult (make 3) 0 0 None None)
      (mkResult (bytes_of_string "bb" ++ make 1) 2 1 None None))
    by (eapply reach_pass; [| apply reach_here]; reflexivity).
  split; [exact Hreach |]; split; [reflexivity |]; split; [reflexivity |].
  split; [reflexivity |].
  intros H.
  destruct (H (mkResult (bytes_of_string "bb" ++ make 1) 2 1 None None))
    as (res & Hres & _ & _ & Herr).
  - exact Hreach.
  - vm_compute; discriminate.
  - vm_compute; reflexivity.
  - vm_compute in Hres; injection Hres as <-; discriminate.
Qed.

(** The pass that finds a match without room (lines 130-135), from any
    state a call reaches: the call returns the counts of the passes before,
    with [dst] and the history as those passes left them, and sets
    [ErrShortDst] only when [nDst] is 0. *)
Lemma Transform_short_at_match (o n : list byte) (h : option ReplaceHistory)
  (dst src : list byte) (atEOF : bool) (st : result) :
  o <> [] ->
  reach o n src atEOF (mkResult dst 0 0 None h) st ->
  Index (skipn (Z.to_nat (nSrc st)) src) o <> -1 ->
  len (r_dst st) - nDst st < Index (skipn (Z.to_nat (nSrc st)) src) o + len n ->
  Transform (NewReplacer o n h) dst src atEOF
  = Ok (mkResult (r_dst st) (nDst st) (nSrc st)
          (if nDst st =? 0 then Some ErrShortDst else None) (r_history st)).
Proof.
  intros Ho Hr Hi Hshort.
  pose proof (len_pos_of_nonempty o Ho) as Hlo.
  pose proof (len_nonneg dst) as Hd; pose proof (len_nonneg src) as Hs.
  assert (Hb0 : in_bounds src (mkResult dst 0 0 None h))
    by (unfold in_bounds; cbn; lia).
  destruct (reach_loop o n src atEOF _ st Ho Hr Hb0) as (Hb & Herr & Hloop).
  pose proof Hb as Hb'.
  assert (Hlen : len o <= len src).
  { destruct (Index_range (skipn (Z.to_nat (nSrc st)) src) o) as [? | [H0 H]];
      [contradiction |].
    destruct Hb' as [HS _]; rewrite len_skipn in H by exact HS; lia. }
  unfold Transform, NewReplacer; cbn [old new history].
  replace (len src <? len o) with false by (symmetry; apply Z.ltb_ge; lia).
  replace (len o =? 0) with false by (symmetry; apply Z.eqb_neq; lia).
  rewrite Hloop by (cbn [nSrc]; unfold len; lia).
  cbn [Transform_loop].
  rewrite (body_found o n src atEOF st Hb Hi); cbn [bind].
  apply Z.ltb_lt in Hshort; rewrite Hshort.
  cbn [err] in Herr; rewrite Herr; reflexivity.
Qed.

(** C6, counterexample.  Deleting ([new] empty) records entries whose
    destination span is empty, so [dst0 < dst1] fails; and the coordinates
    are offsets into the buffers of the call that made the entry, so a
    second call on the same replacer starts again from zero and the order
    across calls fails. *)
Lemma ledger_claim_fails :
  (exists h,
     run_calls (bytes_of_string "a") [] (Some NewReplaceHistory)
       [mkCall (make 4) (bytes_of_string "aa") true] = Ok (Some h) /\
     ~ ledger_claim (bytes_of_string "a") [] h) /\
  (exists h,
     run_calls (bytes_of_string "a") (bytes_of_string "b") (Some NewReplaceHistory)
       [mkCall (make 4) (bytes_of_string "xa") false;
        mkCall (make 4) (bytes_of_string "a") true] = Ok (Some h) /\
     ~ ledger_claim (bytes_of_string "a") (bytes_of_string "b") h).
Proof.
  split; eexists; (split; [vm_compute; reflexivity |]); intros H.
  - destruct (H 0 0 1 0 0 eq_refl) as (_ & _ & Hnext).
    destruct (Hnext 1 2 0 0 eq_refl) as (_ & _ & Hd & _); lia.
  - destruct (H 0 1 2 1 2 eq_refl) as (_ & _ & Hnext).
    destruct (Hnext 0 1 0 1 eq_refl) as (_ & Hs & _); lia.
Qed.

(** C6, amended.  Over the calls made on one replacer with a history
    attached: every recorded entry has [src1 - src0 = len old],
    [dst1 - dst0 = len new], [src0 < src1] and [dst0 <= dst1]; a call only
    appends; and the entries appended by one call satisfy
    [src1(i) <= src0(i+1)] and [dst1(i) <= dst0(i+1)], the coordinates being
    offsets into that call's [src] and [dst]. *)
Theorem ledger_coordinate_law (o n : list byte) (cs : list call) (c : call) :
  exists h0 h,
    run_calls o n (Some NewReplaceHistory) cs = Ok (Some h0) /\
    run_calls o n (Some NewReplaceHistory) (cs ++ [c]) = Ok (Some h) /\
    (forall i e, At h i = Ok e -> lawful o n e) /\
    (forall i e, At h0 i = Ok e -> At h i = Ok e) /\
    (forall i a b c0 d a' b' c' d',
       len (src0 h0) <= i ->
       At h i = Ok (a, b, c0, d) -> At h (i + 1) = Ok (a', b', c', d') ->
       b <= a' /\ d <= c').
Proof.
  assert (Hnew : aligned NewReplaceHistory) by (repeat split).
  destruct (run_calls_history o n NewReplaceHistory cs Hnew)
    as (h0 & recs0 & Hrun0 & Ha0 & He0 & Hl0).
  destruct (Transform_returns (NewReplacer o n (Some h0)) (c_dst c) (c_src c)
              (c_atEOF c)) as (res & Hres & _).
  destruct (Transform_history o n h0 _ _ _ res Ha0 Hres)
    as (h & recs & Hh & Ha & He & Hl & Hord).
  exists h0, h; split; [exact Hrun0 |]; split; [| split; [| split]].
  - rewrite run_calls_app, Hrun0; cbn [bind run_calls].
    rewrite Hres; cbn [bind]; now rewrite Hh.
  - intros i e Hat; apply (At_entries h i e Ha) in Hat as [_ Hnth].
    cbn [entries NewReplaceHistory] in He0; cbn in He0.
    assert (Hall : Forall (lawful o n) (entries h)).
    { rewrite He, He0; apply Forall_app; now split. }
    rewrite Forall_forall in Hall; apply Hall.
    eapply nth_error_In; exact Hnth.
  - intros i e Hat; apply (At_entries h0 i e Ha0) in Hat as [Hi Hnth].
    apply (At_entries h i e Ha); split; [exact Hi |].
    rewrite He, nth_error_app1; [exact Hnth |].
    apply nth_error_Some; congruence.
  - intros i a b c0 d a' b' c' d' Hi H1 H2.
    apply (At_entries h _ _ Ha) in H1 as [Hi0 H1], H2 as [_ H2].
    pose proof (length_entries h0 Ha0) as Hlen; unfold len in Hi.
    rewrite He in H1, H2.
    rewrite nth_error_app2 in H1, H2 by lia.
    replace (Z.to_nat (i + 1) - length (entries h0))%nat
      with (S (Z.to_nat i - length (entries h0))) in H2 by lia.
    exact (ordered_from_consecutive 0 0 recs _ _ _ _ _ _ _ _ _ Hord H1 H2).
Qed.

Lemma ledger_coordinate_law_witness :
  lawful (bytes_of_string "a") (bytes_of_string "b") (0, 1, 0, 1) /\
  2 <= 3 /\ 2 <= 3.
Proof.
  destruct (ledger_coordinate_law (bytes_of_string "a") (bytes_of_string "b")
              [mkCall (make 4) (bytes_of_string "a") false]
              (mkCall (make 4) (bytes_of_string "xaxa") true))
    as (h0 & h & H0 & H1 & Hlaw & Hkeep & Hord).
  vm_compute in H0; injection H0 as <-.
  vm_compute in H1; injection H1 as <-.
  split.
  - apply (Hlaw 0); vm_compute; reflexivity.
  - apply (Hord 1 1 2 1 2 3 4 3 4).
    + vm_compute; discriminate.
    + vm_compute; reflexivity.
    + vm_compute; reflexivity.
Defined.

(** C7, counterexample.  Not at end of input, a source shorter than [old]
    is answered with [ErrShortSrc] before the destination is looked at; and
    when [new] is empty a match at the front of [src] is deleted, which
    needs no destination byte, so the call consumes it. *)
Lemma starved_claim_fails :
  ~ starved_claim (ReplaceString "ab" "X") (bytes_of_string "a") false /\
  ~ starved_claim (Replace (bytes_of_string "a") []) (bytes_of_string "a") true.
Proof.
  split; intros H.
  - destruct H as (res & Hres & Herr & _); [discriminate |].
    vm_compute in Hres; injection Hres as <-; discriminate.
  - destruct H as (res & Hres & _ & HnS & _); [discriminate |].
    vm_compute in Hres; injection Hres as <-; discriminate.
Qed.

(** C7, amended.  For a non-empty [old] and a source at least as long as
    [old], where [new] is non-empty or [src] does not begin with [old]: a
    call with a destination of no bytes reports [ErrShortDst], consumes
    nothing and produces nothing. *)
Theorem starved_destination (o n : list byte) (h : option ReplaceHistory)
  (dst src : list byte) (atEOF : bool) :
  o <> [] -> len o <= len src -> len dst = 0 ->
  n <> [] \/ HasPrefix src o = false ->
  Transform (NewReplacer o n h) dst src atEOF
  = Ok (mkResult dst 0 0 (Some ErrShortDst) h).
Proof.
  intros Ho Hlen Hd Hn.
  pose proof (len_pos_of_nonempty o Ho) as Hlo.
  pose proof (len_nonneg src) as Hs; pose proof (len_nonneg n) as Hln.
  set (st := mkResult dst 0 0 None h).
  assert (Hb : in_bounds src st) by (unfold in_bounds, st; cbn [nSrc nDst r_dst]; lia).
  unfold Transform, NewReplacer; cbn [old new history].
  replace (len src <? len o) with false by (symmetry; apply Z.ltb_ge; lia).
  replace (len o =? 0) with false by (symmetry; apply Z.eqb_neq; lia).
  cbn [Transform_loop]; fold st.
  destruct (Z.eq_dec (Index (skipn (Z.to_nat (nSrc st)) src) o) (-1)) as [Hi | Hi].
  - rewrite (body_notfound o n src atEOF Ho st Hb Hi); cbn [bind].
    unfold st; cbn [nSrc nDst r_dst err r_history].
    pose proof (tail_count_pos o src atEOF Ho Hlen) as Hc.
    replace (len dst - 0 <? tail_count o src atEOF 0) with true
      by (symmetry; apply Z.ltb_lt; lia).
    reflexivity.
  - rewrite (body_found o n src atEOF st Hb Hi); cbn [bind].
    unfold st in *; cbn [nSrc nDst r_dst err r_history Z.to_nat skipn] in *.
    destruct (Index_range src o) as [? | [Hi0 _]]; [contradiction |].
    assert (Hpos : 1 <= Index src o + len n).
    { destruct Hn as [Hn | Hn].
      - pose proof (len_pos_of_nonempty n Hn); lia.
      - destruct (Z.eq_dec (Index src o) 0) as [E | E]; [| lia].
        pose proof (Index_found src o Hi0) as Hf.
        rewrite E in Hf; cbn [Z.to_nat skipn] in Hf; congruence. }
    replace (len dst - 0 <? Index src o + len n) with true
      by (symmetry; apply Z.ltb_lt; lia).
    reflexivity.
Qed.

Lemma starved_destination_witness :
  Transform (NewReplacer (bytes_of_string "ab") (bytes_of_string "X") None)
    [] (bytes_of_string "xab") true
  = Ok (mkResult [] 0 0 (Some ErrShortDst) None).
Proof.
  apply (starved_destination (bytes_of_string "ab") (bytes_of_string "X") None
           [] (bytes_of_string "xab") true).
  - discriminate.
  - vm_compute; discriminate.
  - reflexivity.
  - left; discriminate.
Defined.

(** C8.  The table with rules (a, b) then (b, c), applied to the input
    "a" in one call at end of input with room for the result, yields "c":
    the second stage rewrites what the first produced. *)
Theorem pipeline_is_sequential (dst : list byte) :
  1 <= len dst ->
  exists rs dst',
    ReplaceAll ["a"; "b"; "b"; "c"] = Ok rs /\
    Chain_Transform rs dst (bytes_of_string "a") true = Ok (dst', 1, 1, None) /\
    slice dst' 0 1 = Ok (bytes_of_string "c").
Proof.
  intros Hd.
  exists [Replace (bytes_of_string "a") (bytes_of_string "b");
          Replace (bytes_of_string "b") (bytes_of_string "c")].
  assert (H1 : Transform (Replace (bytes_of_string "a") (bytes_of_string "b"))
                 (repeat x00 defaultBufSize) (bytes_of_string "a") true
               = Ok (mkResult (bytes_of_string "b" ++ repeat x00 4095) 1 1 None None))
    by (vm_compute; reflexivity).
  assert (H2 : slice (bytes_of_string "b" ++ repeat x00 4095) 0 1
               = Ok (bytes_of_string "b")) by (vm_compute; reflexivity).
  destruct (Transform_whole_stream (bytes_of_string "b") (bytes_of_string "c")
              None dst (bytes_of_string "b"))
    as (res & Hres & HnS & Herr & HnD & Hout).
  { discriminate. }
  { vm_compute; discriminate. }
  { exact Hd. }
  exists (r_dst res); split; [reflexivity |].
  cbn [Chain_Transform]; rewrite H1; cbn [bind r_dst nDst nSrc err].
  rewrite H2; cbn [bind].
  unfold Replace; rewrite Hres; cbn [bind].
  rewrite Herr, HnD; split; [reflexivity |].
  unfold produced in Hout; rewrite HnD in Hout; exact Hout.
Qed.

Lemma pipeline_is_sequential_witness :
  exists rs dst',
    ReplaceAll ["a"; "b"; "b"; "c"] = Ok rs /\
    Chain_Transform rs (make 1) (bytes_of_string "a") true = Ok (dst', 1, 1, None) /\
    slice dst' 0 1 = Ok (bytes_of_string "c").
Proof.
  apply (pipeline_is_sequential (make 1)).
  vm_compute; discriminate.
Defined.

(** C9.  A replacer with a nil history and one with a history attached
    return the same [nDst], [nSrc] and status and leave the same bytes in
    [dst]; both calls return, and the nil history is still nil after the
    call. *)
Theorem history_is_transparent (o n : list byte) (h : ReplaceHistory)
  (dst src : list byte) (atEOF : bool) :
  exists a b,
    Transform (Replace o n) dst src atEOF = Ok a /\
    Transform (NewReplacer o n (Some h)) dst src atEOF = Ok b /\
    observable a = observable b /\
    r_history a = None.
Proof.
  destruct (Transform_returns (Replace o n) dst src atEOF) as (a & Ha & _).
  destruct (Transform_returns (NewReplacer o n (Some h)) dst src atEOF)
    as (b & Hb & _).
  exists a, b; split; [exact Ha |]; split; [exact Hb |]; split.
  - pose proof (Transform_observable o n None (Some h) dst src atEOF) as H.
    fold (Replace o n) in H; rewrite Ha, Hb in H; cbn [omap] in H.
    congruence.
  - apply (Transform_keeps_nil o n dst src atEOF); exact Ha.
Qed.

(** C10.  Every call returns without a slice or index out of range; it
    leaves [dst] at its length and unchanged from offset [nDst] on, and
    [0 <= nSrc <= len src] and [0 <= nDst <= len dst]. *)
Theorem Transform_is_safe (r : Replacer) (dst src : list byte) (atEOF : bool) :
  exists res,
    Transform r dst src atEOF = Ok res /\
    0 <= nSrc res <= len src /\
    0 <= nDst res <= len dst /\
    len (r_dst res) = len dst /\
    skipn (Z.to_nat (nDst res)) (r_dst res) = skipn (Z.to_nat (nDst res)) dst.
Proof.
  destruct (Transform_returns r dst src atEOF)
    as (res & Hres & [HS HD] & (HL & _ & _ & HK & _)).
  cbn [r_dst] in HL, HK.
  exists res; rewrite <- HL at 1; repeat split; try assumption; apply HS || apply HD.
Qed.

(** * Further properties of the code *)

(** ** The history: [add], [At] and [Iterate] *)

Lemma index_in_range {A : Type} (s : list A) (i : Z) :
  0 <= i < len s -> exists x, index s i = Ok x /\ nth_error s (Z.to_nat i) = Some x.
Proof.
  intros [H0 H1]; unfold index.
  replace (0 <=? i) with true by (symmetry; apply Z.leb_le; lia).
  replace (i <? len s) with true by (symmetry; apply Z.ltb_lt; lia).
  cbn [andb].
  destruct (nth_error s (Z.to_nat i)) as [x |] eqn:E; [now exists x |].
  apply nth_error_None in E; unfold len in H1; lia.
Qed.

Lemma index_out_of_range {A : Type} (s : list A) (i : Z) :
  ~ 0 <= i < len s -> index s i = Panic.
Proof.
  intros H; unfold index.
  destruct (0 <=? i) eqn:E0; [| reflexivity].
  destruct (i <? len s) eqn:E1; [| reflexivity].
  apply Z.leb_le in E0; apply Z.ltb_lt in E1; lia.
Qed.

Lemma aligned_add (h : ReplaceHistory) (a b c d : Z) :
  aligned h ->
  aligned (mkHistory (src0 h ++ [a]) (src1 h ++ [b]) (dst0 h ++ [c]) (dst1 h ++ [d])).
Proof.
  intros (H1 & H2 & H3); unfold aligned; cbn [src0 src1 dst0 dst1].
  rewrite !length_app; cbn [length]; lia.
Qed.

Lemma entries_add (h : ReplaceHistory) (a b c d : Z) :
  aligned h ->
  entries (mkHistory (src0 h ++ [a]) (src1 h ++ [b]) (dst0 h ++ [c]) (dst1 h ++ [d]))
  = entries h ++ [(a, b, c, d)].
Proof.
  intros (H1 & H2 & H3); unfold entries; cbn [src0 src1 dst0 dst1].
  now apply entries_of_snoc.
Qed.

Lemma At_inside (h : ReplaceHistory) (i : Z) :
  aligned h -> 0 <= i < len (src0 h) ->
  exists e, At h i = Ok e /\ nth_error (entries h) (Z.to_nat i) = Some e.
Proof.
  intros Ha Hi.
  pose proof (length_entries h Ha) as Hl.
  destruct (nth_error (entries h) (Z.to_nat i)) as [e |] eqn:E.
  - exists e; split; [| reflexivity].
    apply (At_entries h i e Ha); split; [lia | exact E].
  - apply nth_error_None in E; unfold len in Hi; lia.
Qed.

(** X1.  On a history whose four slices have one length, [At] returns the
    entry at every index from 0 up to the number of entries and panics at
    every other index. *)
Theorem At_range (h : ReplaceHistory) (i : Z) :
  aligned h ->
  (0 <= i < len (src0 h) ->
   exists e, At h i = Ok e /\ nth_error (entries h) (Z.to_nat i) = Some e) /\
  (~ 0 <= i < len (src0 h) -> At h i = Panic).
Proof.
  intros Ha; split.
  - apply At_inside; exact Ha.
  - intros Hi; unfold At; now rewrite index_out_of_range.
Qed.

Lemma At_range_witness :
  At (mkHistory [1; 4] [2; 5] [1; 3] [2; 4]) 1 = Ok (4, 5, 3, 4) /\
  At (mkHistory [1; 4] [2; 5] [1; 3] [2; 4]) 2 = Panic.
Proof.
  assert (Ha : aligned (mkHistory [1; 4] [2; 5] [1; 3] [2; 4])) by (repeat split).
  destruct (At_range (mkHistory [1; 4] [2; 5] [1; 3] [2; 4]) 1 Ha) as [Hin _].
  destruct (At_range (mkHistory [1; 4] [2; 5] [1; 3] [2; 4]) 2 Ha) as [_ Hout].
  split.
  - destruct Hin as (e & He & Hn); [vm_compute; split; congruence |].
    cbn in Hn; injection Hn as <-; exact He.
  - apply Hout; vm_compute; intros [_ H]; discriminate.
Defined.

(** X2.  [add] on a history attached to a replacer appends one entry: [At]
    at the old number of entries returns exactly the four coordinates
    added, every earlier index still returns what it did, and the number of
    entries grows by one.  On a nil history [add] is a no-op. *)
Theorem add_then_At (h : ReplaceHistory) (a b c d : Z) :
  aligned h ->
  add None a b c d = None /\
  exists h', add (Some h) a b c d = Some h' /\
    aligned h' /\
    len (src0 h') = len (src0 h) + 1 /\
    At h' (len (src0 h)) = Ok (a, b, c, d) /\
    forall i, 0 <= i < len (src0 h) -> At h' i = At h i.
Proof.
  intros Ha; split; [reflexivity |].
  eexists; split; [reflexivity |].
  pose proof (aligned_add h a b c d Ha) as Ha'.
  pose proof (entries_add h a b c d Ha) as He.
  pose proof (length_entries h Ha) as Hl.
  set (h' := mkHistory _ _ _ _) in *.
  split; [exact Ha' |]; split; [| split].
  - unfold h', len; cbn [src0]; rewrite length_app; cbn [length]; lia.
  - apply (At_entries h' _ _ Ha'); split; [apply len_nonneg |].
    rewrite He; unfold len; rewrite Nat2Z.id, <- Hl.
    rewrite nth_error_app2, Nat.sub_diag by lia; reflexivity.
  - intros i Hi.
    destruct (At_inside h i Ha Hi) as (e & He1 & Hn); rewrite He1.
    apply (At_entries h' _ _ Ha'); split; [lia |].
    rewrite He, nth_error_app1; [exact Hn |].
    unfold len in Hi; lia.
Qed.

Lemma add_then_At_witness :
  exists h', add (Some NewReplaceHistory) 3 5 2 3 = Some h' /\
    At h' 0 = Ok (3, 5, 2, 3).
Proof.
  destruct (add_then_At NewReplaceHistory 3 5 2 3) as (_ & h' & H1 & _ & _ & H2 & _).
  - repeat split.
  - exists h'; split; [exact H1 | exact H2].
Defined.

Lemma skipn_nth_error {A : Type} (l : list A) (k : nat) (x : A) :
  nth_error l k = Some x -> skipn k l = x :: skipn (S k) l.
Proof.
  revert k; induction l as [|y l IH]; intros [|k]; cbn; try discriminate.
  - now intros [= ->].
  - intros H; rewrite (IH k H); reflexivity.
Qed.

Lemma Iterate_loop_visit {St : Type} (h : ReplaceHistory) (f : visitor St)
  (k : nat) (i : nat) (s : St) :
  aligned h -> (i + k = length (src0 h))%nat ->
  Iterate_loop h f k (Z.of_nat i) s = Ok (visit f (skipn i (entries h)) s).
Proof.
  intros Ha; pose proof (length_entries h Ha) as Hl.
  revert i s; induction k as [|k IH]; intros i s Hik.
  - cbn [Iterate_loop]; rewrite skipn_all2 by lia; reflexivity.
  - destruct (At_inside h (Z.of_nat i) Ha) as (e & _ & Hn);
      [unfold len; lia |].
    rewrite Nat2Z.id in Hn.
    rewrite (skipn_nth_error _ _ _ Hn).
    destruct Ha as (H1 & H2 & H3).
    apply (nth_error_entries_of _ _ _ _ _ _ H1 H2 H3) in Hn
      as (a & b & c & d & -> & Ea & Eb & Ec & Ed).
    cbn [Iterate_loop visit].
    rewrite (proj2 (index_nth_error (src0 h) (Z.of_nat i) a))
      by (rewrite Nat2Z.id; split; [lia | exact Ea]).
    rewrite (proj2 (index_nth_error (src1 h) (Z.of_nat i) b))
      by (rewrite Nat2Z.id; split; [lia | exact Eb]).
    rewrite (proj2 (index_nth_error (dst0 h) (Z.of_nat i) c))
      by (rewrite Nat2Z.id; split; [lia | exact Ec]).
    rewrite (proj2 (index_nth_error (dst1 h) (Z.of_nat i) d))
      by (rewrite Nat2Z.id; split; [lia | exact Ed]).
    cbn [bind]; destruct (f a b c d s) as [[|] s']; [| reflexivity].
    replace (Z.of_nat i + 1) with (Z.of_nat (S i)) by lia.
    apply IH; try (repeat split; assumption); lia.
Qed.

Lemma Iterate_aligned {St : Type} (h : ReplaceHistory) (f : visitor St) (s : St) :
  aligned h -> Iterate (Some h) f s = Ok (visit f (entries h) s).
Proof.
  intros Ha; unfold Iterate.
  exact (Iterate_loop_visit h f (length (src0 h)) 0 s Ha eq_refl).
Qed.

(** X3.  [Iterate] hands the visitor the entries in the order they were
    recorded, the same entries [At] returns index by index, and stops after
    the first one for which the visitor returns false; it never panics on a
    history whose four slices have one length, and on a nil history it
    calls nothing. *)
Theorem Iterate_visits_in_order {St : Type} (h : ReplaceHistory) (f : visitor St)
  (s : St) :
  aligned h ->
  Iterate (Some h) f s = Ok (visit f (entries h) s) /\
  Iterate None f s = Ok s /\
  (forall i e, At h i = Ok e <->
               0 <= i /\ nth_error (entries h) (Z.to_nat i) = Some e).
Proof.
  intros Ha; split; [now apply Iterate_aligned |]; split; [reflexivity |].
  intros i e; now apply At_entries.
Qed.

Lemma Iterate_visits_in_order_witness :
  Iterate (Some (mkHistory [1; 4; 9] [2; 5; 10] [1; 3; 7] [2; 4; 8]))
    (fun a b c d acc => (a <? 4, acc ++ [(a, b, c, d)])) []
  = Ok [(1, 2, 1, 2); (4, 5, 3, 4)].
Proof.
  destruct (Iterate_visits_in_order
              (mkHistory [1; 4; 9] [2; 5; 10] [1; 3; 7] [2; 4; 8])
              (fun a b c d acc => (a <? 4, acc ++ [(a, b, c, d)])) [])
    as (H & _ & _).
  - repeat split.
  - exact H.
Defined.

(** X4.  Whatever calls were made on a replacer that started with a fresh
    history, the history they leave can be read back without a panic:
    [Iterate] visits all its entries in order, [At] succeeds at every index
    below their number, and a collecting visitor gets exactly the entries
    [At] enumerates. *)
Theorem history_of_calls_is_readable (o n : list byte) (cs : list call) :
  exists h,
    run_calls o n (Some NewReplaceHistory) cs = Ok (Some h) /\
    (forall (St : Type) (f : visitor St) (s : St),
        Iterate (Some h) f s = Ok (visit f (entries h) s)) /\
    Iterate (Some h) (fun a b c d acc => (true, acc ++ [(a, b, c, d)])) []
    = Ok (entries h) /\
    (forall i, 0 <= i < len (src0 h) ->
       exists e, At h i = Ok e /\ nth_error (entries h) (Z.to_nat i) = Some e).
Proof.
  assert (Hnew : aligned NewReplaceHistory) by (repeat split).
  destruct (run_calls_history o n NewReplaceHistory cs Hnew)
    as (h & recs & Hrun & Ha & _ & _).
  exists h; split; [exact Hrun |]; split; [| split].
  - intros St f s; now apply Iterate_aligned.
  - rewrite Iterate_aligned by exact Ha.
    assert (H : forall es acc,
               visit (fun a b c d acc => (true, acc ++ [(a, b, c, d)])) es acc
               = acc ++ es).
    { induction es as [|[[[a b] c] d] es IH]; intros acc; cbn [visit].
      - now rewrite app_nil_r.
      - rewrite IH, <- app_assoc; reflexivity. }
    now rewrite (H (entries h) []).
  - intros i Hi; now apply At_inside.
Qed.

(** ** Replace tables *)

Lemma quot2_bounds (l : Z) : 0 <= l -> 2 * Z.quot l 2 <= l < 2 * Z.quot l 2 + 2.
Proof.
  intros H; rewrite Z.quot_div_nonneg by lia.
  pose proof (Z.div_mod l 2); pose proof (Z.mod_pos_bound l 2); lia.
Qed.

Lemma pair_inside {A : Type} (t : list A) (i : Z) :
  0 <= i < Z.quot (len t) 2 ->
  exists x y, index t (i * 2) = Ok x /\ index t (i * 2 + 1) = Ok y /\
    nth_error t (Z.to_nat (i * 2)) = Some x /\
    nth_error t (Z.to_nat (i * 2 + 1)) = Some y.
Proof.
  intros Hi; pose proof (quot2_bounds (len t) (len_nonneg t)) as Hq.
  destruct (index_in_range t (i * 2)) as (x & Hx & Hnx); [lia |].
  destruct (index_in_range t (i * 2 + 1)) as (y & Hy & Hny); [lia |].
  exists x, y; repeat split; assumption.
Qed.

Lemma index_not_OutOfFuel {A : Type} (s : list A) (i : Z) : index s i <> OutOfFuel.
Proof.
  unfold index; destruct (_ && _); [| discriminate].
  destruct (nth_error s (Z.to_nat i)); discriminate.
Qed.

Lemma pair_outside {A B : Type} (t : list A) (i : Z) (k : A -> A -> outcome B) :
  ~ 0 <= i < Z.quot (len t) 2 ->
  (x <- index t (i * 2) ;; y <- index t (i * 2 + 1) ;; k x y) = Panic.
Proof.
  intros Hi; pose proof (quot2_bounds (len t) (len_nonneg t)) as Hq.
  destruct (Z_lt_dec i 0) as [Hneg | Hpos].
  - rewrite index_out_of_range by lia; reflexivity.
  - rewrite (index_out_of_range t (i * 2 + 1)) by lia.
    pose proof (index_not_OutOfFuel t (i * 2)) as Hf.
    destruct (index t (i * 2)); [reflexivity | reflexivity | contradiction].
Qed.



Lemma index_app1 {A : Type} (t l : list A) (j : Z) :
  0 <= j < len t -> index (t ++ l) j = index t j.
Proof.
  intros Hj; destruct (index_in_range t j Hj) as (x & Hx & Hn); rewrite Hx.
  apply index_nth_error; split; [lia |].
  rewrite nth_error_app1; [exact Hn | unfold len in Hj; lia].
Qed.

Lemma index_app2 {A : Type} (t l : list A) (j : Z) :
  0 <= j -> index (t ++ l) (len t + j) = index l j.
Proof.
  intros Hj; pose proof (len_nonneg t) as Ht; unfold index.
  rewrite len_app.
  replace (0 <=? len t + j) with true by (symmetry; apply Z.leb_le; lia).
  replace (0 <=? j) with true by (symmetry; apply Z.leb_le; lia).
  replace (len t + j <? len t + len l) with (j <? len l)
    by (destruct (j <? len l) eqn:E; symmetry;
        [apply Z.ltb_lt; apply Z.ltb_lt in E | apply Z.ltb_ge; apply Z.ltb_ge in E];
        lia).
  cbn [andb]; rewrite nth_error_app2 by (unfold len; lia).
  replace (Z.to_nat (len t + j) - length t)%nat with (Z.to_nat j)
    by (unfold len; lia).
  reflexivity.
Qed.

Lemma even_len_quot (l : Z) : 0 <= l -> Z.rem l 2 = 0 -> l = 2 * Z.quot l 2.
Proof. intros H0 H; pose proof (Z.quot_rem' l 2); lia. Qed.

Lemma Add_Len {A : Type} (t : list A) (o n : A) :
  Z.quot (len (t ++ [o; n])) 2 = Z.quot (len t) 2 + 1.
Proof.
  rewrite len_app; change (len [o; n]) with 2.
  pose proof (len_nonneg t).
  replace (len t + 2) with (1 * 2 + len t) by lia.
  rewrite !Z.quot_div_nonneg by lia.
  rewrite Z.div_add_l by lia; lia.
Qed.

Lemma Add_pair_last {A B : Type} (t : list A) (o n : A) (k : A -> A -> outcome B) :
  Z.rem (len t) 2 = 0 ->
  (x <- index (t ++ [o; n]) (Z.quot (len t) 2 * 2) ;;
   y <- index (t ++ [o; n]) (Z.quot (len t) 2 * 2 + 1) ;; k x y) = k o n.
Proof.
  intros He; pose proof (even_len_quot (len t) (len_nonneg t) He) as Hq.
  replace (Z.quot (len t) 2 * 2) with (len t + 0) at 1 by lia.
  replace (Z.quot (len t) 2 * 2 + 1) with (len t + 1) by lia.
  rewrite !index_app2 by lia; reflexivity.
Qed.

Lemma Add_pair_before {A B : Type} (t : list A) (o n : A) (i : Z)
  (k : A -> A -> outcome B) :
  0 <= i < Z.quot (len t) 2 ->
  (x <- index (t ++ [o; n]) (i * 2) ;; y <- index (t ++ [o; n]) (i * 2 + 1) ;; k x y)
  = (x <- index t (i * 2) ;; y <- index t (i * 2 + 1) ;; k x y).
Proof.
  intros Hi; pose proof (quot2_bounds (len t) (len_nonneg t)) as Hq.
  rewrite !index_app1 by lia; reflexivity.
Qed.

(** X6.  [Add] on a table holding an even number of elements is a rule
    insert: [Len()] grows by one, [At] at the old [Len()] returns the rule
    just added, and every earlier rule is returned as before.  For byte
    tables and for string tables. *)
Theorem table_Add_then_At :
  (forall (t : ReplaceByteTable) (o n : list byte),
      Z.rem (len t) 2 = 0 ->
      let t' := ReplaceByteTable_Add t o n in
      table_Len t' = table_Len t + 1 /\
      table_At t' (table_Len t) = Ok (o, n) /\
      forall i, 0 <= i < table_Len t -> table_At t' i = table_At t i) /\
  (forall (t : ReplaceStringTable) (o n : String.string),
      Z.rem (len t) 2 = 0 ->
      let t' := ReplaceStringTable_Add t o n in
      table_Len t' = table_Len t + 1 /\
      table_At t' (table_Len t) = Ok (bytes_of_string o, bytes_of_string n) /\
      forall i, 0 <= i < table_Len t -> table_At t' i = table_At t i).
Proof.
  split; intros t o n He t'; subst t';
    unfold ReplaceByteTable_Add, ReplaceStringTable_Add;
    cbn [table_At table_Len ByteTable StringTable].
  - split; [apply Add_Len |]; split.
    + now apply (Add_pair_last t o n (fun x y => Ok (x, y))).
    + intros i Hi; now apply (Add_pair_before t o n i (fun x y => Ok (x, y))).
  - split; [apply Add_Len |]; split.
    + now apply (Add_pair_last t o n
                   (fun x y => Ok (bytes_of_string x, bytes_of_string y))).
    + intros i Hi;
        now apply (Add_pair_before t o n i
                     (fun x y => Ok (bytes_of_string x, bytes_of_string y))).
Qed.

(** X7.  A table holding an odd number of elements has a dangling last
    element that [Len()] and [At] leave out; [Add] after it does not store
    the new rule as a rule: [At] at the old [Len()] pairs the dangling
    element with the added [old]. *)
Theorem table_Add_after_dangling (t : ReplaceByteTable) (x o n : list byte) :
  Z.rem (len t) 2 = 0 ->
  table_Len (t ++ [x]) = table_Len t /\
  (forall i, 0 <= i < table_Len t -> table_At (t ++ [x]) i = table_At t i) /\
  table_At (t ++ [x]) (table_Len t) = Panic /\
  table_At (ReplaceByteTable_Add (t ++ [x]) o n) (table_Len t) = Ok (x, o).
Proof.
  intros He; pose proof (even_len_quot (len t) (len_nonneg t) He) as Hq.
  pose proof (len_nonneg t) as Ht.
  assert (HL : Z.quot (len (t ++ [x])) 2 = Z.quot (len t) 2).
  { rewrite len_app; change (len [x]) with 1.
    pose proof (Z.quot_rem' (len t + 1) 2) as H1.
    pose proof (Z.rem_bound_pos (len t + 1) 2).
    pose proof (quot2_bounds (len t + 1)); lia. }
  unfold ReplaceByteTable_Add; cbn [table_At table_Len ByteTable].
  split; [exact HL |]; split; [| split].
  - intros i Hi; rewrite !index_app1 by lia; reflexivity.
  - apply pair_outside; rewrite HL; lia.
  - rewrite <- app_assoc; cbn [app].
    replace (Z.quot (len t) 2 * 2) with (len t + 0) at 1 by lia.
    replace (Z.quot (len t) 2 * 2 + 1) with (len t + 1) by lia.
    rewrite !index_app2 by lia; reflexivity.
Qed.

Lemma table_Add_then_At_witness :
  table_At (ReplaceStringTable_Add ["a"; "b"] "b" "c") 1
  = Ok (bytes_of_string "b", bytes_of_string "c") /\
  table_At (ReplaceByteTable_Add [] [x61] [x62]) 0 = Ok ([x61], [x62]).
Proof.
  destruct table_Add_then_At as [Hb Hs]; split.
  - destruct (Hs ["a"; "b"] "b" "c") as (_ & H & _); [reflexivity | exact H].
  - destruct (Hb [] [x61] [x62]) as (_ & H & _); [reflexivity | exact H].
Defined.

Lemma table_Add_after_dangling_witness :
  table_At (ReplaceByteTable_Add [[x61]; [x62]; [x63]] [x64] [x65]) 1
  = Ok ([x63], [x64]).
Proof.
  destruct (table_Add_after_dangling [[x61]; [x62]] [x63] [x64] [x65])
    as (_ & _ & _ & H); [reflexivity | exact H].
Defined.

Lemma fold_Add_flat {A R : Type} (g : R -> A * A) (rules : list R) (acc : list A) :
  fold_left (fun t r => t ++ [fst (g r); snd (g r)]) rules acc
  = acc ++ flat_map (fun r => [fst (g r); snd (g r)]) rules.
Proof.
  revert acc; induction rules as [|r rules IH]; intros acc; cbn [fold_left flat_map].
  - now rewrite app_nil_r.
  - rewrite IH, <- app_assoc; reflexivity.
Qed.

Lemma flat_pairs_len {A R : Type} (g : R -> A * A) (rules : list R) :
  len (flat_map (fun r => [fst (g r); snd (g r)]) rules) = 2 * len rules.
Proof.
  induction rules as [|r rules IH]; [reflexivity |].
  cbn [flat_map]; rewrite len_app, IH; unfold len; cbn [length]; lia.
Qed.

Lemma flat_pairs_nth {A R : Type} (g : R -> A * A) (rules : list R) (i : nat) (r : R) :
  nth_error rules i = Some r ->
  nth_error (flat_map (fun r => [fst (g r); snd (g r)]) rules) (2 * i)
  = Some (fst (g r)) /\
  nth_error (flat_map (fun r => [fst (g r); snd (g r)]) rules) (2 * i + 1)
  = Some (snd (g r)).
Proof.
  revert i; induction rules as [|r0 rules IH]; intros [|i]; cbn [nth_error];
    try discriminate.
  - intros [= ->]; split; reflexivity.
  - intros H; destruct (IH i H) as [H1 H2].
    replace (2 * S i)%nat with (S (S (2 * i))) by lia.
    replace (S (S (2 * i)) + 1)%nat with (S (S (2 * i + 1))) by lia.
    cbn [flat_map app nth_error]; split; assumption.
Qed.

Lemma pairs_At {A R B : Type} (g : R -> A * A) (rules : list R) (i : nat) (r : R)
  (k : A -> A -> outcome B) :
  nth_error rules i = Some r ->
  let t := flat_map (fun r => [fst (g r); snd (g r)]) rules in
  (x <- index t (Z.of_nat i * 2) ;; y <- index t (Z.of_nat i * 2 + 1) ;; k x y)
  = k (fst (g r)) (snd (g r)).
Proof.
  intros H t; destruct (flat_pairs_nth g rules i r H) as [H1 H2].
  rewrite (proj2 (index_nth_error t (Z.of_nat i * 2) (fst (g r)))).
  - rewrite (proj2 (index_nth_error t (Z.of_nat i * 2 + 1) (snd (g r))));
      [reflexivity |].
    split; [lia |].
    replace (Z.to_nat (Z.of_nat i * 2 + 1)) with (2 * i + 1)%nat by lia; exact H2.
  - split; [lia |].
    replace (Z.to_nat (Z.of_nat i * 2)) with (2 * i)%nat by lia; exact H1.
Qed.

(** The stages [ReplaceAll] builds, for any table whose [At] succeeds at the
    indices asked for. *)
Lemma ReplaceAll_stages_spec {T : Type} `{ReplaceTable T} (t : T) (k : nat) (i0 : Z) :
  (forall j, i0 <= j < i0 + Z.of_nat k -> exists p, table_At t j = Ok p) ->
  exists rs, ReplaceAll_stages t k i0 = Ok rs /\ length rs = k /\
    forall j, (j < k)%nat ->
      exists o n, table_At t (i0 + Z.of_nat j) = Ok (o, n) /\
                  nth_error rs j = Some (Replace o n).
Proof.
  revert i0; induction k as [|k IH]; intros i0 Hat.
  - exists []; repeat split; intros j Hj; lia.
  - destruct (Hat i0) as ([o n] & Hp); [lia |].
    destruct (IH (i0 + 1)) as (rs & Hrs & Hlen & Hnth).
    { intros j Hj; apply Hat; lia. }
    exists (Replace o n :: rs); cbn [ReplaceAll_stages].
    rewrite Hp; cbn [bind]; rewrite Hrs; cbn [bind].
    split; [reflexivity |]; split; [cbn [length]; lia |].
    intros [|j] Hj.
    + exists o, n; rewrite Z.add_0_r; split; [exact Hp | reflexivity].
    + destruct (Hnth j) as (o' & n' & Ho' & Hn'); [lia |].
      exists o', n'; split; [| exact Hn'].
      replace (i0 + Z.of_nat (S j)) with (i0 + 1 + Z.of_nat j) by lia; exact Ho'.
Qed.

Lemma table_Len_nonneg_list {A : Type} (t : list A) : 0 <= Z.quot (len t) 2.
Proof.
  pose proof (len_nonneg t); pose proof (quot2_bounds (len t) (len_nonneg t)); lia.
Qed.

(** X8.  [ReplaceAll] never panics on a byte table or a string table,
    whatever its length: it builds exactly [Len()] replacers, the [i]-th
    from the pair [At(i)] returns, each with a nil history. *)
Theorem ReplaceAll_builds_one_stage_per_rule :
  (forall t : ReplaceByteTable,
      exists rs, ReplaceAll t = Ok rs /\ len rs = table_Len t /\
        forall i, 0 <= i < table_Len t ->
          exists o n, table_At t i = Ok (o, n) /\
            nth_error rs (Z.to_nat i) = Some (mkReplacer o n None)) /\
  (forall t : ReplaceStringTable,
      exists rs, ReplaceAll t = Ok rs /\ len rs = table_Len t /\
        forall i, 0 <= i < table_Len t ->
          exists o n, table_At t i = Ok (o, n) /\
            nth_error rs (Z.to_nat i) = Some (mkReplacer o n None)).
Proof.
  split; intros t.
  - destruct (ReplaceAll_stages_spec t (Z.to_nat (table_Len t)) 0)
      as (rs & Hrs & Hlen & Hnth).
    { intros j Hj; cbn [table_At table_Len ByteTable] in *.
      destruct (pair_inside t j) as (x & y & Hx & Hy & _); [lia |].
      exists (x, y); now rewrite Hx, Hy. }
    pose proof (table_Len_nonneg_list t) as HL.
    exists rs; unfold ReplaceAll.
    replace (table_Len t <? 0) with false
      by (symmetry; apply Z.ltb_ge; exact HL).
    split; [exact Hrs |]; split.
    + unfold len; rewrite Hlen; cbn [table_Len ByteTable] in *; lia.
    + intros i Hi; destruct (Hnth (Z.to_nat i)) as (o & n & Ho & Hn); [lia |].
      exists o, n; split; [| exact Hn].
      rewrite Z.add_0_l, Z2Nat.id in Ho by lia; exact Ho.
  - destruct (ReplaceAll_stages_spec t (Z.to_nat (table_Len t)) 0)
      as (rs & Hrs & Hlen & Hnth).
    { intros j Hj; cbn [table_At table_Len StringTable] in *.
      destruct (pair_inside t j) as (x & y & Hx & Hy & _); [lia |].
      exists (bytes_of_string x, bytes_of_string y); now rewrite Hx, Hy. }
    pose proof (table_Len_nonneg_list t) as HL.
    exists rs; unfold ReplaceAll.
    replace (table_Len t <? 0) with false
      by (symmetry; apply Z.ltb_ge; exact HL).
    split; [exact Hrs |]; split.
    + unfold len; rewrite Hlen; cbn [table_Len StringTable] in *; lia.
    + intros i Hi; destruct (Hnth (Z.to_nat i)) as (o & n & Ho & Hn); [lia |].
      exists o, n; split; [| exact Hn].
      rewrite Z.add_0_l, Z2Nat.id in Ho by lia; exact Ho.
Qed.

Lemma stages_of_rules {T R : Type} `{ReplaceTable T} (t : T) (rules : list R)
  (pr : R -> list byte * list byte) (i0 : Z) :
  (forall i r, nth_error rules i = Some r -> table_At t (i0 + Z.of_nat i) = Ok (pr r)) ->
  ReplaceAll_stages t (length rules) i0
  = Ok (map (fun r => Replace (fst (pr r)) (snd (pr r))) rules).
Proof.
  revert i0; induction rules as [|r rules IH]; intros i0 Hat; [reflexivity |].
  cbn [length ReplaceAll_stages map].
  pose proof (Hat 0%nat r eq_refl) as H0; rewrite Z.add_0_r in H0.
  rewrite H0; cbn [bind]; destruct (pr r) as [o n] eqn:E; cbn [fst snd].
  rewrite (IH (i0 + 1)); [reflexivity |].
  intros i r' Hr'.
  replace (i0 + 1 + Z.of_nat i) with (i0 + Z.of_nat (S i)) by lia.
  apply Hat; exact Hr'.
Qed.

Lemma quot_double (k : Z) : 0 <= k -> Z.quot (2 * k) 2 = k.
Proof.
  intros H; rewrite Z.quot_div_nonneg by lia.
  rewrite Z.mul_comm; apply Z.div_mul; lia.
Qed.

(** X9.  A table filled by [Add] from empty, rule after rule, holds those
    rules: [Len()] is their number, [At(i)] returns the [i]-th (as bytes for
    a string table), and [ReplaceAll] builds one replacer per rule, in the
    order the rules were added, each without a history. *)
Theorem table_filled_by_Add :
  (forall rules : list (list byte * list byte),
      let t := byte_table_of rules in
      table_Len t = len rules /\
      (forall i r, nth_error rules i = Some r -> table_At t (Z.of_nat i) = Ok r) /\
      ReplaceAll t = Ok (map (fun r => Replace (fst r) (snd r)) rules)) /\
  (forall rules : list (String.string * String.string),
      let t := string_table_of rules in
      table_Len t = len rules /\
      (forall i r, nth_error rules i = Some r ->
         table_At t (Z.of_nat i)
         = Ok (bytes_of_string (fst r), bytes_of_string (snd r))) /\
      ReplaceAll t = Ok (map (fun r => ReplaceString (fst r) (snd r)) rules)).
Proof.
  split; intros rules t; subst t.
  - assert (Ht : byte_table_of rules
                 = flat_map (fun r => [fst r; snd r]) rules)
      by exact (fold_Add_flat (fun r => r) rules []).
    rewrite Ht; clear Ht.
    set (t := flat_map _ rules).
    assert (HL : Z.quot (len t) 2 = len rules).
    { unfold t.
      rewrite (flat_pairs_len (fun r => r)); apply quot_double, len_nonneg. }
    assert (HA : forall i r, nth_error rules i = Some r ->
                   table_At t (Z.of_nat i) = Ok r).
    { intros i r Hr; cbn [table_At ByteTable]; unfold t.
      rewrite (pairs_At (fun r => r) rules i r (fun x y => Ok (x, y)) Hr).
      now destruct r. }
    split; [exact HL |]; split; [exact HA |].
    unfold ReplaceAll; cbn [table_Len ByteTable StringTable]; rewrite HL.
    replace (len rules <? 0) with false
      by (symmetry; apply Z.ltb_ge; apply len_nonneg).
    unfold len; rewrite Nat2Z.id.
    apply (stages_of_rules t rules (fun r => r) 0).
    intros i r Hr; rewrite Z.add_0_l; now apply HA.
  - assert (Ht : string_table_of rules
                 = flat_map (fun r => [fst r; snd r]) rules)
      by exact (fold_Add_flat (fun r => r) rules []).
    rewrite Ht; clear Ht.
    set (t := flat_map _ rules).
    assert (HL : Z.quot (len t) 2 = len rules).
    { unfold t.
      rewrite (flat_pairs_len (fun r => r)); apply quot_double, len_nonneg. }
    assert (HA : forall i r, nth_error rules i = Some r ->
                   table_At t (Z.of_nat i)
                   = Ok (bytes_of_string (fst r), bytes_of_string (snd r))).
    { intros i r Hr; cbn [table_At StringTable]; unfold t.
      now rewrite (pairs_At (fun r => r) rules i r
                     (fun x y => Ok (bytes_of_string x, bytes_of_string y)) Hr). }
    split; [exact HL |]; split; [exact HA |].
    unfold ReplaceAll; cbn [table_Len ByteTable StringTable]; rewrite HL.
    replace (len rules <? 0) with false
      by (symmetry; apply Z.ltb_ge; apply len_nonneg).
    unfold len; rewrite Nat2Z.id.
    apply (stages_of_rules t rules
             (fun r => (bytes_of_string (fst r), bytes_of_string (snd r))) 0).
    intros i r Hr; rewrite Z.add_0_l; now apply HA.
Qed.

(** ** What a call with room in [dst] produces and what it leaves unconsumed *)

Lemma HasPrefix_of_firstn (s o : list byte) (m : nat) :
  HasPrefix (firstn m s) o = true -> HasPrefix s o = true.
Proof.
  intros [t Ht]%HasPrefix_app; apply HasPrefix_app.
  exists (t ++ skipn m s); rewrite app_assoc, <- Ht; symmetry; apply firstn_skipn.
Qed.

Lemma HasPrefix_firstn (s o : list byte) (m : nat) :
  (length o <= m)%nat -> HasPrefix s o = true -> HasPrefix (firstn m s) o = true.
Proof.
  intros Hm [t ->]%HasPrefix_app; apply HasPrefix_app.
  exists (firstn (m - length o) t).
  rewrite firstn_app, firstn_all2 by exact Hm; reflexivity.
Qed.

Lemma Index_firstn_none (s o : list byte) (m : nat) :
  Index s o = -1 -> Index (firstn m s) o = -1.
Proof.
  revert m; induction s as [|b s IH]; intros m.
  - now rewrite firstn_nil.
  - cbn [Index]; destruct (HasPrefix (b :: s) o) eqn:E; [discriminate |].
    cbv zeta; destruct (Index s o =? -1) eqn:E1;
      [| pose proof (Index_range s o); apply Z.eqb_neq in E1; lia].
    apply Z.eqb_eq in E1; intros _.
    assert (Hnil : HasPrefix [] o = false).
    { destruct o; [discriminate E | reflexivity]. }
    destruct m as [|m]; cbn [firstn Index]; [now rewrite Hnil |].
    destruct (HasPrefix (b :: firstn m s) o) eqn:E2.
    + apply (HasPrefix_of_firstn (b :: s) o (S m)) in E2; congruence.
    + now rewrite (IH m E1).
Qed.

Lemma Index_firstn_found (s o : list byte) (m : nat) :
  0 <= Index s o -> Index s o + len o <= Z.of_nat m ->
  Index (firstn m s) o = Index s o.
Proof.
  revert m; induction s as [|b s IH]; intros m.
  - now rewrite firstn_nil.
  - cbn [Index]; destruct (HasPrefix (b :: s) o) eqn:E.
    + intros _ Hm.
      assert (E' : HasPrefix (firstn m (b :: s)) o = true)
        by (apply HasPrefix_firstn; [unfold len in Hm; lia | exact E]).
      destruct m as [|m]; cbn [firstn] in *.
      * cbn [Index]; now rewrite E'.
      * cbn [Index]; now rewrite E'.
    + cbv zeta; destruct (Index s o =? -1) eqn:E1; [lia |].
      apply Z.eqb_neq in E1; intros H0 Hm.
      destruct (Index_range s o) as [? | [Hi0 _]]; [contradiction |].
      pose proof (len_nonneg o).
      destruct m as [|m]; [lia |].
      cbn [firstn Index].
      destruct (HasPrefix (b :: firstn m s) o) eqn:E2.
      * apply (HasPrefix_of_firstn (b :: s) o (S m)) in E2; congruence.
      * rewrite (IH m Hi0) by lia.
        replace (Index s o =? -1) with false
          by (symmetry; apply Z.eqb_neq; exact E1).
        reflexivity.
Qed.

Lemma replace_all_prefix_found (o n s : list byte) (m : nat) :
  o <> [] -> 0 <= Index s o -> Index s o + len o <= Z.of_nat m ->
  replace_all o n (firstn m s)
  = firstn (Z.to_nat (Index s o)) s ++ n ++
    replace_all o n
      (firstn (m - Z.to_nat (Index s o + len o))
              (skipn (Z.to_nat (Index s o + len o)) s)).
Proof.
  intros Ho H0 Hm; pose proof (len_nonneg o) as Hlo.
  pose proof (Index_firstn_found s o m H0 Hm) as Hi.
  rewrite (replace_all_found o n (firstn m s) Ho) by (rewrite Hi; exact H0).
  rewrite Hi, firstn_firstn, skipn_firstn_comm.
  replace (Nat.min (Z.to_nat (Index s o)) m) with (Z.to_nat (Index s o)) by lia.
  reflexivity.
Qed.

Lemma withheld_true (o src : list byte) (atEOF : bool) (nS : Z) :
  withheld o src atEOF nS = true ->
  atEOF = false /\ Z.rem (len src - nS) (len o) <> 0 /\
  HasPrefix o (skipn (Z.to_nat (len src - Z.rem (len src - nS) (len o))) src) = true.
Proof.
  unfold withheld; cbv zeta.
  destruct atEOF; [discriminate |]; cbn [negb andb].
  destruct (Z.rem (len src - nS) (len o) =? 0) eqn:E; [discriminate |].
  apply Z.eqb_neq in E; cbn [negb andb]; intros H; repeat split; assumption.
Qed.

(** The loop, entered with room in [dst] for the replace-all of the rest of
    [src]: it produces the replace-all of the bytes it consumes, and what it
    leaves unconsumed is either nothing or, not at end of input, a tail
    shorter than [old] that [old] begins with. *)
Lemma loop_stream (o n src : list byte) (atEOF : bool) (fuel : nat) (st : result) :
  o <> [] -> in_bounds src st -> len src - nSrc st < Z.of_nat fuel ->
  err st = None ->
  len (replace_all o n (skipn (Z.to_nat (nSrc st)) src))
    <= len (r_dst st) - nDst st ->
  exists res, Transform_loop fuel o n src atEOF st = Ok res /\
    nSrc st <= nSrc res <= len src /\
    (let taken := firstn (Z.to_nat (nSrc res - nSrc st))
                         (skipn (Z.to_nat (nSrc st)) src) in
     nDst res = nDst st + len (replace_all o n taken) /\
     firstn (Z.to_nat (nDst res)) (r_dst res)
     = firstn (Z.to_nat (nDst st)) (r_dst st) ++ replace_all o n taken) /\
    ((nSrc res = len src /\ err res = None) \/
     (atEOF = false /\ nSrc res < len src /\ len src - nSrc res < len o /\
      HasPrefix o (skipn (Z.to_nat (nSrc res)) src) = true /\
      err res = Some ErrShortDst)).
Proof.
  intros Ho; revert st; induction fuel as [|fuel IH]; intros st Hb Hf Herr Hcap.
  { destruct Hb; lia. }
  pose proof Hb as [HS HD]; pose proof (len_nonneg n) as Hln.
  pose proof (len_pos_of_nonempty o Ho) as Hlo.
  cbn [Transform_loop].
  set (rest := skipn (Z.to_nat (nSrc st)) src) in *.
  assert (Hrest : len rest = len src - nSrc st) by (apply len_skipn; exact HS).
  destruct (Z.eq_dec (Index rest o) (-1)) as [Hi | Hi].
  - rewrite (body_notfound o n src atEOF Ho st Hb Hi); cbn [bind].
    pose proof (tail_count_range o src atEOF Ho (nSrc st) HS) as Hc.
    set (cnt := tail_count o src atEOF (nSrc st)) in *.
    fold rest.
    assert (Hall : replace_all o n rest = rest) by (apply replace_all_none; exact Hi).
    rewrite Hall in Hcap.
    replace (len (r_dst st) - nDst st <? cnt) with false
      by (symmetry; apply Z.ltb_ge; lia).
    set (taken := firstn (Z.to_nat cnt) rest).
    assert (Htl : len taken = cnt) by (apply len_firstn; lia).
    assert (Htk : replace_all o n taken = taken).
    { apply replace_all_none; unfold taken; now apply Index_firstn_none. }
    eexists; split; [reflexivity |]; cbn [nSrc nDst err r_dst r_history].
    split; [lia |]; split.
    + cbv zeta; replace (nSrc st + cnt - nSrc st) with cnt by lia.
      fold taken; rewrite Htk; split; [lia |].
      rewrite <- Htl at 1; apply firstn_splice; lia.
    + destruct (withheld o src atEOF (nSrc st)) eqn:Ew.
      * right; apply withheld_true in Ew as (He & Hr & Hp).
        pose proof (Z.rem_bound_pos (len src - nSrc st) (len o)) as Hrb.
        assert (Hcnt : cnt = len src - nSrc st - Z.rem (len src - nSrc st) (len o)).
        { unfold cnt, tail_count, withheld; cbv zeta; rewrite He; cbn [negb andb].
          replace (Z.rem (len src - nSrc st) (len o) =? 0) with false
            by (symmetry; apply Z.eqb_neq; exact Hr).
          cbn [negb andb]; now rewrite Hp. }
        repeat split; try lia; try exact He.
        replace (nSrc st + cnt)
          with (len src - Z.rem (len src - nSrc st) (len o)) by lia.
        exact Hp.
      * left; split; [| exact Herr].
        unfold cnt, tail_count; rewrite Ew; lia.
  - rewrite (body_found o n src atEOF st Hb Hi); cbn [bind]; fold rest.
    destruct (Index_range rest o) as [? | [Hi0 Hi1]]; [contradiction |].
    pose proof (replace_all_found o n rest Ho Hi0) as Hout.
    set (i := Index rest o) in *.
    set (pre := firstn (Z.to_nat i) rest) in *.
    assert (Hpre : len pre = i) by (apply len_firstn; lia).
    assert (Hnext : skipn (Z.to_nat (i + len o)) rest
                    = skipn (Z.to_nat (nSrc st + (i + len o))) src).
    { unfold rest; rewrite skipn_skipn; f_equal; lia. }
    rewrite Hnext in Hout.
    set (out' := replace_all o n (skipn (Z.to_nat (nSrc st + (i + len o))) src)) in *.
    assert (Hlen : len (replace_all o n rest) = i + len n + len out')
      by (rewrite Hout, !len_app; lia).
    pose proof (len_nonneg out') as Hout'.
    replace (len (r_dst st) - nDst st <? i + len n) with false
      by (symmetry; apply Z.ltb_ge; lia).
    set (st' := mkResult _ _ _ _ _).
    assert (Hx : len (pre ++ n) = i + len n) by (rewrite len_app; lia).
    assert (Hb' : in_bounds src st').
    { unfold in_bounds, st'; cbn [r_dst nDst nSrc]; rewrite len_splice by lia; lia. }
    destruct (IH st' Hb') as (res & Hres & HN & [H3 H4] & Hend).
    + unfold st'; cbn [nSrc]; lia.
    + exact Herr.
    + unfold st'; cbn [r_dst nDst nSrc]; fold out'; rewrite len_splice by lia; lia.
    + exists res; split; [exact Hres |].
      unfold st' in HN, H3, H4; cbn [r_dst nDst nSrc err] in HN, H3, H4.
      split; [lia |]; split; [| exact Hend].
      cbv zeta.
      set (m := Z.to_nat (nSrc res - nSrc st)).
      assert (Htaken : replace_all o n (firstn m rest)
                       = pre ++ n ++
                         replace_all o n
                           (firstn (Z.to_nat (nSrc res - (nSrc st + (i + len o))))
                              (skipn (Z.to_nat (nSrc st + (i + len o))) src))).
      { rewrite (replace_all_prefix_found o n rest m Ho Hi0) by (fold i; lia).
        fold i; fold pre; rewrite Hnext.
        do 4 f_equal; unfold m; lia. }
      rewrite Htaken, H4; split.
      * rewrite H3, !len_app; lia.
      * replace (nDst st + i + len n) with (nDst st + len (pre ++ n)) by lia.
        rewrite firstn_splice by lia.
        now rewrite <- !app_assoc.
Qed.

Lemma Transform_stream (o n : list byte) (h : option ReplaceHistory)
  (dst src : list byte) (atEOF : bool) :
  o <> [] -> len o <= len src -> len (replace_all o n src) <= len dst ->
  exists res, Transform (NewReplacer o n h) dst src atEOF = Ok res /\
    0 <= nSrc res <= len src /\
    nDst res = len (replace_all o n (firstn (Z.to_nat (nSrc res)) src)) /\
    produced res = Ok (replace_all o n (firstn (Z.to_nat (nSrc res)) src)) /\
    ((nSrc res = len src /\ err res = None) \/
     (atEOF = false /\ nSrc res < len src /\ len src - nSrc res < len o /\
      HasPrefix o (skipn (Z.to_nat (nSrc res)) src) = true /\
      err res = Some ErrShortDst)).
Proof.
  intros Ho Hlen Hcap; pose proof (len_pos_of_nonempty o Ho) as Hlo.
  pose proof (len_nonneg dst) as Hd; pose proof (len_nonneg src) as Hs.
  unfold Transform, NewReplacer; cbn [old new history].
  replace (len src <? len o) with false by (symmetry; apply Z.ltb_ge; lia).
  replace (len o =? 0) with false by (symmetry; apply Z.eqb_neq; lia).
  set (st := mkResult dst 0 0 None h).
  assert (Hb0 : in_bounds src st) by (unfold in_bounds, st; cbn; lia).
  destruct (loop_stream o n src atEOF (S (length src)) st Ho Hb0)
    as (res & Hres & HN & [H3 H4] & Hend).
  - unfold st; cbn [nSrc]; unfold len; lia.
  - reflexivity.
  - unfold st; cbn [r_dst nDst nSrc Z.to_nat skipn]; lia.
  - destruct (Transform_loop_fuel o n src atEOF Ho (S (length src)) st Hb0)
      as (res' & Hres' & Hb & _).
    { unfold st; cbn [nSrc]; unfold len; lia. }
    rewrite Hres in Hres'; injection Hres' as <-.
    unfold st in HN, H3, H4, Hend;
      cbn [r_dst nDst nSrc Z.to_nat skipn firstn app] in HN, H3, H4, Hend.
    rewrite Z.sub_0_r in H3, H4; rewrite Z.add_0_l in H3.
    exists res; split; [exact Hres |]; split; [exact HN |].
    split; [exact H3 |]; split; [| exact Hend].
    unfold produced; rewrite slice_ok by (destruct Hb; lia).
    rewrite Z.sub_0_r; cbn [Z.to_nat skipn]; now rewrite H4.
Qed.

(** X10.  Whole-stream equivalence where the code has it: for a non-empty
    [old] and a source that is empty or at least as long as [old], one call
    at end of input with room for the result consumes all of [src], reports
    nil, and produces exactly the leftmost, non-overlapping replace-all. *)
Theorem Transform_at_EOF_is_replace_all (o n : list byte)
  (h : option ReplaceHistory) (dst src : list byte) :
  o <> [] -> src = [] \/ len o <= len src ->
  len (replace_all o n src) <= len dst ->
  exists res, Transform (NewReplacer o n h) dst src true = Ok res /\
    nSrc res = len src /\ err res = None /\
    produced res = Ok (replace_all o n src).
Proof.
  intros Ho [-> | Hlen] Hcap.
  - pose proof (len_pos_of_nonempty o Ho) as Hlo.
    rewrite Transform_short_at_EOF by exact Hlo.
    eexists; split; [reflexivity |]; cbn [nSrc err]; repeat split.
    unfold produced; cbn [r_dst nDst]; rewrite slice_ok by (pose proof (len_nonneg dst); lia).
    reflexivity.
  - destruct (Transform_stream o n h dst src true Ho Hlen Hcap)
      as (res & Hres & HN & _ & Hp & [[HS He] | (Habs & _)]); [| discriminate].
    exists res; split; [exact Hres |]; split; [exact HS |]; split; [exact He |].
    rewrite HS in Hp; unfold len in Hp; rewrite Nat2Z.id, firstn_all in Hp; exact Hp.
Qed.

Lemma Transform_at_EOF_is_replace_all_witness :
  exists res,
    Transform (NewReplacer (bytes_of_string "ab") (bytes_of_string "X") None)
      (make 8) (bytes_of_string "abcabab") true = Ok res /\
    nSrc res = 7 /\ err res = None /\
    produced res = Ok (bytes_of_string "XcXX").
Proof.
  apply (Transform_at_EOF_is_replace_all (bytes_of_string "ab") (bytes_of_string "X")
           None (make 8) (bytes_of_string "abcabab")).
  - discriminate.
  - right; vm_compute; discriminate.
  - vm_compute; discriminate.
Defined.

(** X11.  A call that is not at end of input, with room in [dst], loses no
    byte: it produces the replace-all of the prefix of [src] it consumes,
    and what it leaves unconsumed is either nothing (status nil) or a
    non-empty tail shorter than [old] that [old] begins with, held back for
    the next call with status [ErrShortDst]. *)
Theorem Transform_not_at_EOF_holds_back_a_prefix (o n : list byte)
  (h : option ReplaceHistory) (dst src : list byte) :
  o <> [] -> len o <= len src -> len (replace_all o n src) <= len dst ->
  exists res, Transform (NewReplacer o n h) dst src false = Ok res /\
    0 <= nSrc res <= len src /\
    produced res = Ok (replace_all o n (firstn (Z.to_nat (nSrc res)) src)) /\
    ((nSrc res = len src /\ err res = None) \/
     (0 < len src - nSrc res < len o /\
      HasPrefix o (skipn (Z.to_nat (nSrc res)) src) = true /\
      err res = Some ErrShortDst)).
Proof.
  intros Ho Hlen Hcap.
  destruct (Transform_stream o n h dst src false Ho Hlen Hcap)
    as (res & Hres & HN & _ & Hp & Hend).
  exists res; split; [exact Hres |]; split; [exact HN |]; split; [exact Hp |].
  destruct Hend as [H | (_ & H1 & H2 & H3 & H4)]; [left; exact H | right].
  repeat split; try assumption; lia.
Qed.

Lemma Transform_not_at_EOF_holds_back_a_prefix_witness :
  exists res,
    Transform (NewReplacer (bytes_of_string "abc") (bytes_of_string "X") None)
      (make 8) (bytes_of_string "abcxxxa") false = Ok res /\
    nSrc res = 6 /\ produced res = Ok (bytes_of_string "Xxxx") /\
    err res = Some ErrShortDst.
Proof.
  destruct (Transform_not_at_EOF_holds_back_a_prefix
              (bytes_of_string "abc") (bytes_of_string "X") None (make 8)
              (bytes_of_string "abcxxxa"))
    as (res & Hres & _ & _ & _).
  - discriminate.
  - vm_compute; discriminate.
  - vm_compute; discriminate.
  - exists res; split; [exact Hres |].
    vm_compute in Hres; injection Hres as <-.
    repeat split; reflexivity.
Defined.

Lemma replace_all_same_fuel (o s : list byte) (k : nat) :
  o <> [] -> (length s <= k)%nat -> replace_all o o s = s.
Proof.
  intros Ho; pose proof (len_pos_of_nonempty o Ho) as Hlo.
  revert s; induction k as [|k IH]; intros s Hk.
  - destruct s; [reflexivity | cbn in Hk; lia].
  - destruct (Z.eq_dec (Index s o) (-1)) as [Hi | Hi];
      [now apply replace_all_none |].
    destruct (Index_range s o) as [? | [Hi0 Hi1]]; [contradiction |].
    rewrite (replace_all_found o o s Ho Hi0).
    rewrite IH by (rewrite length_skipn; unfold len in *; lia).
    pose proof (Index_found s o Hi0) as [t Ht]%HasPrefix_app.
    assert (Hs : skipn (Z.to_nat (Index s o + len o)) s = t).
    { replace (Z.to_nat (Index s o + len o))
        with (length o + Z.to_nat (Index s o))%nat by (unfold len; lia).
      rewrite <- skipn_skipn, Ht.
      rewrite skipn_app, skipn_all, Nat.sub_diag; reflexivity. }
    rewrite Hs, <- Ht; apply firstn_skipn.
Qed.

(** X12.  Replacing [old] by itself changes no byte: at end of input, with
    a destination at least as long as the source, the call consumes all of
    [src], reports nil and produces [src]. *)
Theorem Transform_same_old_new_is_identity (o : list byte)
  (h : option ReplaceHistory) (dst src : list byte) :
  o <> [] -> len o <= len src -> len src <= len dst ->
  exists res, Transform (NewReplacer o o h) dst src true = Ok res /\
    nSrc res = len src /\ err res = None /\ produced res = Ok src.
Proof.
  intros Ho Hlen Hcap.
  pose proof (replace_all_same_fuel o src (length src) Ho (Nat.le_refl _)) as Hsame.
  destruct (Transform_stream o o h dst src true Ho Hlen)
    as (res & Hres & HN & _ & Hp & [[HS He] | (Habs & _)]);
    [rewrite Hsame; exact Hcap | | discriminate].
  exists res; split; [exact Hres |]; split; [exact HS |]; split; [exact He |].
  rewrite HS in Hp; unfold len in Hp; rewrite Nat2Z.id, firstn_all in Hp.
  now rewrite Hsame in Hp.
Qed.

Lemma Transform_same_old_new_is_identity_witness :
  exists res,
    Transform (NewReplacer (bytes_of_string "ab") (bytes_of_string "ab") None)
      (make 5) (bytes_of_string "xabab") true = Ok res /\
    nSrc res = 5 /\ err res = None /\ produced res = Ok (bytes_of_string "xabab").
Proof.
  apply (Transform_same_old_new_is_identity (bytes_of_string "ab") None (make 5)
           (bytes_of_string "xabab")).
  - discriminate.
  - vm_compute; discriminate.
  - vm_compute; discriminate.
Defined.

(** ** The status a call reports *)

(** X13.  With an empty [old] the call is a plain copy: it writes the first
    [min(len src, len dst)] bytes of [src] at the front of [dst], leaves the
    rest of [dst] and the history untouched, reports that count as both
    [nDst] and [nSrc], and reports nil; with room for all of [src] the
    output is [src]. *)
Theorem Transform_empty_old_copies (r : Replacer) (dst src : list byte)
  (atEOF : bool) :
  old r = [] ->
  exists res, Transform r dst src atEOF = Ok res /\
    nDst res = Z.min (len dst) (len src) /\ nSrc res = nDst res /\
    err res = None /\ r_history res = history r /\
    produced res = Ok (firstn (Z.to_nat (nDst res)) src) /\
    skipn (Z.to_nat (nDst res)) (r_dst res) = skipn (Z.to_nat (nDst res)) dst /\
    (len src <= len dst -> produced res = Ok src).
Proof.
  intros Ho; rewrite (Transform_empty_old r dst src atEOF Ho).
  pose proof (len_nonneg dst) as Hd; pose proof (len_nonneg src) as Hs.
  set (m := Z.min (len dst) (len src)).
  assert (Hx : len (firstn (Z.to_nat m) src) = m) by (apply len_firstn; lia).
  assert (Hp : produced (mkResult (splice dst 0 (firstn (Z.to_nat m) src)) m m None
                           (history r))
               = Ok (firstn (Z.to_nat m) src)).
  { unfold produced; cbn [r_dst nDst].
    rewrite slice_ok by (rewrite ?len_splice; lia).
    rewrite Z.sub_0_r; cbn [Z.to_nat skipn].
    rewrite <- Hx at 1.
    replace (len (firstn (Z.to_nat m) src))
      with (0 + len (firstn (Z.to_nat m) src)) by lia.
    rewrite firstn_splice by lia; reflexivity. }
  eexists; split; [reflexivity |]; cbn [nDst nSrc err r_history r_dst].
  repeat split; try exact Hp.
  - apply skipn_splice; lia.
  - intros Hle; rewrite Hp; f_equal.
    apply firstn_all2; unfold len in *; lia.
Qed.

Lemma Transform_empty_old_copies_witness :
  exists res,
    Transform (Replace [] (bytes_of_string "x")) (make 3) (bytes_of_string "hello") true
    = Ok res /\
    nDst res = 3 /\ nSrc res = 3 /\ err res = None /\
    produced res = Ok (bytes_of_string "hel").
Proof.
  destruct (Transform_empty_old_copies (Replace [] (bytes_of_string "x")) (make 3)
              (bytes_of_string "hello") true)
    as (res & Hres & H1 & H2 & H3 & _ & H5 & _).
  - reflexivity.
  - exists res; split; [exact Hres |].
    rewrite H2, H1 in *; repeat split; try assumption; reflexivity.
Defined.

Ltac step_inner :=
  repeat match goal with
    | |- context [if ?b then _ else _] =>
        lazymatch b with
        | context [bind] => fail
        | _ => destruct b eqn:?
        end
    | |- context [bind ?m _] =>
        lazymatch m with
        | bind _ _ => fail
        | (if _ then _ else _) => fail
        | Ok _ => progress cbn [bind]
        | _ => destruct m as [? | |] eqn:?; cbn [bind]
        end
    | |- context [let (_, _) := ?p in _] => destruct p
    end.

Lemma body_err (o n src : list byte) (atEOF : bool) (st : result) (f : flow) :
  Transform_body o n src atEOF st = Ok f ->
  match f with
  | Continue a => err a = err st
  | Return a => err a = err st \/ err a = Some ErrShortDst
  end.
Proof.
  unfold Transform_body; step_inner; try discriminate;
    intros [= <-]; cbn [err]; auto.
Qed.

Lemma loop_err (o n src : list byte) (atEOF : bool) (fuel : nat) (st res : result) :
  Transform_loop fuel o n src atEOF st = Ok res ->
  err res = err st \/ err res = Some ErrShortDst.
Proof.
  revert st; induction fuel as [|fuel IH]; intros st; [discriminate |].
  cbn [Transform_loop].
  destruct (Transform_body o n src atEOF st) as [f | |] eqn:E;
    cbn [bind]; try discriminate.
  pose proof (body_err o n src atEOF st f E) as Hf.
  destruct f as [a | a].
  - intros H; apply IH in H; rewrite Hf in H; exact H.
  - intros [= <-]; exact Hf.
Qed.

(** X14.  [ErrShortSrc] is reported in exactly one situation: the call is
    not at end of input and [src] is shorter than [old].  In particular the
    bytes held back at a chunk boundary are never announced with
    [ErrShortSrc]. *)
Theorem ErrShortSrc_only_for_short_source (r : Replacer) (dst src : list byte)
  (atEOF : bool) :
  exists res, Transform r dst src atEOF = Ok res /\
    (err res = Some ErrShortSrc <-> atEOF = false /\ len src < len (old r)).
Proof.
  destruct (Transform_returns r dst src atEOF) as (res & Hres & _).
  exists res; split; [exact Hres |].
  revert Hres; unfold Transform.
  destruct (len src <? len (old r)) eqn:E.
  - apply Z.ltb_lt in E; intros [= <-]; cbn [err].
    destruct atEOF; split.
    + intros H; discriminate H.
    + intros [H _]; discriminate H.
    + intros _; split; [reflexivity | exact E].
    + reflexivity.
  - apply Z.ltb_ge in E.
    destruct (len (old r) =? 0).
    + destruct (copy_at dst 0 src) as [[d c] | |]; cbn [bind]; try discriminate.
      intros [= <-]; cbn [err]; split; [discriminate | lia].
    + intros H; apply loop_err in H; cbn [err] in H.
      split; [intros He; rewrite He in H; destruct H; discriminate | lia].
Qed.

Lemma body_status_at_EOF (o n src : list byte) (st : result) (f : flow) :
  Transform_body o n src true st = Ok f ->
  match f with
  | Continue a => err a = err st
  | Return a => err a = err st \/ (err a = Some ErrShortDst /\ nDst a = 0)
  end.
Proof.
  unfold Transform_body; cbn [negb andb]; step_inner; try discriminate;
    intros [= <-]; cbn [err nDst]; auto;
    right; (split; [reflexivity | apply Z.eqb_eq; assumption]).
Qed.

Lemma loop_status_at_EOF (o n src : list byte) (fuel : nat) (st res : result) :
  Transform_loop fuel o n src true st = Ok res ->
  err res = err st \/ (err res = Some ErrShortDst /\ nDst res = 0).
Proof.
  revert st; induction fuel as [|fuel IH]; intros st; [discriminate |].
  cbn [Transform_loop].
  destruct (Transform_body o n src true st) as [f | |] eqn:E;
    cbn [bind]; try discriminate.
  pose proof (body_status_at_EOF o n src st f E) as Hf.
  destruct f as [a | a].
  - intros H; apply IH in H; rewrite Hf in H; exact H.
  - intros [= <-]; exact Hf.
Qed.

(** X15.  At end of input the only statuses are nil and [ErrShortDst], and
    [ErrShortDst] is reported only by a call that produced nothing
    ([nDst = 0]): once a call at end of input has written bytes, it returns
    nil even if unconsumed source remains. *)
Theorem status_at_EOF (r : Replacer) (dst src : list byte) :
  exists res, Transform r dst src true = Ok res /\
    (err res = None \/ (err res = Some ErrShortDst /\ nDst res = 0)).
Proof.
  destruct (Transform_returns r dst src true) as (res & Hres & _).
  exists res; split; [exact Hres |].
  revert Hres; unfold Transform.
  destruct (len src <? len (old r)); [intros [= <-]; now left |].
  destruct (len (old r) =? 0).
  - destruct (copy_at dst 0 src) as [[d c] | |]; cbn [bind]; try discriminate.
    intros [= <-]; now left.
  - intros H; apply loop_status_at_EOF in H; exact H.
Qed.

Lemma tail_count_full (o src : list byte) (atEOF : bool) (nS : Z) :
  withheld o src atEOF nS = false -> tail_count o src atEOF nS = len src - nS.
Proof. unfold tail_count; now intros ->. Qed.

Lemma loop_progress (o n src : list byte) (atEOF : bool) (fuel : nat) (st res : result) :
  o <> [] -> len o <= len src -> in_bounds src st -> err st = None ->
  (0 < nDst st -> 0 < nSrc st) ->
  Transform_loop fuel o n src atEOF st = Ok res ->
  err res = None -> 0 < nSrc res /\ (nSrc res = len src \/ 0 < nDst res).
Proof.
  intros Ho Hlen; pose proof (len_pos_of_nonempty o Ho) as Hlo.
  revert st; induction fuel as [|fuel IH]; intros st Hb Herr Hinv; [discriminate |].
  pose proof Hb as [HS HD]; pose proof (len_nonneg n) as Hln.
  cbn [Transform_loop].
  destruct (Z.eq_dec (Index (skipn (Z.to_nat (nSrc st)) src) o) (-1)) as [Hi | Hi].
  - rewrite (body_notfound o n src atEOF Ho st Hb Hi); cbn [bind].
    pose proof (tail_count_range o src atEOF Ho (nSrc st) HS) as Hc.
    destruct (_ <? _) eqn:E; intros [= <-]; cbn [err nSrc nDst].
    + destruct (nDst st =? 0) eqn:E0; [discriminate |].
      apply Z.eqb_neq in E0; intros _; split; [| right]; lia.
    + destruct (withheld o src atEOF (nSrc st)) eqn:Ew; [discriminate |].
      rewrite (tail_count_full _ _ _ _ Ew); intros _; split; [| left]; lia.
  - rewrite (body_found o n src atEOF st Hb Hi); cbn [bind].
    destruct (Index_range (skipn (Z.to_nat (nSrc st)) src) o) as [? | [Hi0 Hi1]];
      [contradiction |].
    rewrite len_skipn in Hi1 by exact HS.
    destruct (_ <? _) eqn:E.
    + intros [= <-]; cbn [err nSrc nDst].
      destruct (nDst st =? 0) eqn:E0; [discriminate |].
      apply Z.eqb_neq in E0; intros _; split; [| right]; lia.
    + apply Z.ltb_ge in E; apply IH.
      * unfold in_bounds; cbn [r_dst nDst nSrc].
        rewrite len_splice; rewrite ?len_app, ?len_firstn;
          rewrite ?len_skipn; try lia.
      * exact Herr.
      * cbn [nSrc nDst]; lia.
Qed.

(** X16.  A call with a non-empty [old] and a source at least as long as
    [old] never stalls silently: when it reports nil it has consumed at
    least one source byte, and it has either consumed all of [src] or
    produced output. *)
Theorem nil_status_means_progress (o n : list byte) (h : option ReplaceHistory)
  (dst src : list byte) (atEOF : bool) :
  o <> [] -> len o <= len src ->
  exists res, Transform (NewReplacer o n h) dst src atEOF = Ok res /\
    (err res = None ->
     0 < nSrc res /\ (nSrc res = len src \/ 0 < nDst res)).
Proof.
  intros Ho Hlen; pose proof (len_pos_of_nonempty o Ho) as Hlo.
  destruct (Transform_returns (NewReplacer o n h) dst src atEOF) as (res & Hres & _).
  exists res; split; [exact Hres |].
  revert Hres; unfold Transform, NewReplacer; cbn [old new history].
  replace (len src <? len o) with false by (symmetry; apply Z.ltb_ge; lia).
  replace (len o =? 0) with false by (symmetry; apply Z.eqb_neq; lia).
  apply loop_progress; try assumption; try reflexivity.
  - unfold in_bounds; cbn; pose proof (len_nonneg dst); lia.
  - cbn [nDst]; lia.
Qed.

Lemma nil_status_means_progress_witness :
  exists res,
    Transform (NewReplacer (bytes_of_string "a") (bytes_of_string "bb") None)
      (make 3) (bytes_of_string "aa") true = Ok res /\
    0 < nSrc res /\ 0 < nDst res.
Proof.
  destruct (nil_status_means_progress (bytes_of_string "a") (bytes_of_string "bb")
              None (make 3) (bytes_of_string "aa") true)
    as (res & Hres & Hp).
  - discriminate.
  - vm_compute; discriminate.
  - exists res; split; [exact Hres |].
    vm_compute in Hres; injection Hres as <-.
    split; reflexivity.
Defined.

(** ** What the history says about a call *)

Lemma slice_inv {A : Type} (l : list A) (a b : Z) (x : list A) :
  slice l a b = Ok x ->
  0 <= a <= b /\ b <= len l /\ x = firstn (Z.to_nat (b - a)) (skipn (Z.to_nat a) l).
Proof.
  unfold slice.
  destruct (0 <=? a) eqn:E0; [| discriminate].
  destruct (a <=? b) eqn:E1; [| discriminate].
  destruct (b <=? len l) eqn:E2; [| discriminate].
  cbn [andb]; intros [= <-].
  apply Z.leb_le in E0, E1, E2; repeat split; assumption.
Qed.

Lemma slice_same_front {A : Type} (l l' : list A) (a b k : Z) (x : list A) :
  slice l a b = Ok x -> b <= k -> len l' = len l ->
  firstn (Z.to_nat k) l' = firstn (Z.to_nat k) l ->
  slice l' a b = Ok x.
Proof.
  intros Hs Hk Hl Hf; apply slice_inv in Hs as (Hab & Hb & ->).
  rewrite slice_ok by lia; f_equal.
  rewrite !firstn_skipn_comm.
  replace (Z.to_nat a + Z.to_nat (b - a))%nat with (Z.to_nat b) by lia.
  f_equal; apply (firstn_eq_less _ _ _ (Z.to_nat k)); [lia | exact Hf].
Qed.

Lemma slice_splice (dst : list byte) (off : Z) (x : list byte) :
  0 <= off -> off + len x <= len dst ->
  slice (splice dst off x) off (off + len x) = Ok x.
Proof.
  intros H0 H1; pose proof (len_nonneg x) as Hx.
  rewrite slice_ok by (rewrite ?len_splice; lia); f_equal.
  unfold splice; rewrite skipn_past by (rewrite length_firstn; unfold len in *; lia).
  replace (Z.to_nat off - length (firstn (Z.to_nat off) dst))%nat with 0%nat
    by (rewrite length_firstn; unfold len in *; lia).
  cbn [skipn]; apply firstn_exact; unfold len; lia.
Qed.

Lemma recorded_later (o n src dst dst' : list byte) (nD nD' k : Z) (es : list entry) :
  recorded o n src dst nD k es ->
  len dst' = len dst -> nD <= nD' ->
  firstn (Z.to_nat nD) dst' = firstn (Z.to_nat nD) dst ->
  recorded o n src dst' nD' k es.
Proof.
  revert k; induction es as [|[[[a b] c] d] es IH]; intros k; cbn [recorded];
    [trivial |].
  intros (H1 & H2 & H3 & H4 & H5) Hl Hle Hf.
  repeat split; try assumption; try lia.
  - apply (slice_same_front dst dst' c d nD n H2 H3 Hl Hf).
  - now apply IH.
Qed.

Lemma recorded_snoc (o n src dst : list byte) (nD k : Z) (es : list entry)
  (a b c d : Z) :
  recorded o n src dst nD k es ->
  slice src a b = Ok o -> slice dst c d = Ok n -> d <= nD ->
  c - a = (k + len es) * (len n - len o) ->
  recorded o n src dst nD k (es ++ [(a, b, c, d)]).
Proof.
  revert k; induction es as [|[[[a0 b0] c0] d0] es IH]; intros k;
    cbn [recorded app].
  - intros _ H1 H2 H3 H4; change (len (@nil entry)) with 0 in H4.
    rewrite Z.add_0_r in H4; repeat split; assumption.
  - intros (H1 & H2 & H3 & H4 & H5) G1 G2 G3 G4.
    repeat split; try assumption.
    apply IH; try assumption.
    rewrite G4; unfold len; cbn [length]; f_equal; lia.
Qed.

Lemma recorded_nth (o n src dst : list byte) (nD k : Z) (es : list entry)
  (j : nat) (a b c d : Z) :
  recorded o n src dst nD k es -> nth_error es j = Some (a, b, c, d) ->
  slice src a b = Ok o /\ slice dst c d = Ok n /\ d <= nD /\
  c - a = (k + Z.of_nat j) * (len n - len o).
Proof.
  revert k j; induction es as [|[[[a0 b0] c0] d0] es IH]; intros k j;
    [destruct j; discriminate |].
  cbn [recorded]; intros (H1 & H2 & H3 & H4 & H5).
  destruct j as [|j]; cbn [nth_error].
  - intros [= <- <- <- <-]; rewrite Z.add_0_r; repeat split; assumption.
  - intros Hn; destruct (IH (k + 1) j H5 Hn) as (G1 & G2 & G3 & G4).
    repeat split; try assumption.
    rewrite G4; f_equal; lia.
Qed.

Lemma body_ledger (o n src : list byte) (atEOF : bool) (before : list entry)
  (st : result) (f : flow) :
  o <> [] -> in_bounds src st -> ledger_inv o n src before st ->
  Transform_body o n src atEOF st = Ok f ->
  match f with Continue a | Return a => ledger_inv o n src before a end.
Proof.
  intros Ho Hb Hinv; pose proof Hb as [HS HD].
  pose proof (len_pos_of_nonempty o Ho) as Hlo; pose proof (len_nonneg n) as Hln.
  destruct Hinv as (h & recs & Hh & Ha & He & Hrec & Hdiff).
  destruct (Z.eq_dec (Index (skipn (Z.to_nat (nSrc st)) src) o) (-1)) as [Hi | Hi].
  - rewrite (body_notfound o n src atEOF Ho st Hb Hi); intros [= <-].
    pose proof (tail_count_range o src atEOF Ho (nSrc st) HS) as Hc.
    destruct (_ <? _) eqn:E.
    + exists h, recs; cbn [r_history r_dst nDst nSrc]; repeat split;
        try assumption; apply Ha.
    + apply Z.ltb_ge in E.
      set (x := firstn _ _).
      assert (Hx : len x = tail_count o src atEOF (nSrc st)).
      { apply len_firstn; rewrite len_skipn by exact HS; lia. }
      exists h, recs; cbn [r_history r_dst nDst nSrc].
      split; [exact Hh |]; split; [exact Ha |]; split; [exact He |]; split; [| lia].
      apply (recorded_later o n src (r_dst st) _ (nDst st)); try assumption; try lia.
      * apply len_splice; lia.
      * apply firstn_before_splice; lia.
  - rewrite (body_found o n src atEOF st Hb Hi); intros [= <-].
    destruct (Index_range (skipn (Z.to_nat (nSrc st)) src) o) as [? | [Hi0 Hi1]];
      [contradiction |].
    pose proof (Index_found _ _ Hi0) as Hfound.
    rewrite len_skipn in Hi1 by exact HS.
    set (i := Index _ _) in *.
    destruct (_ <? _) eqn:E.
    + exists h, recs; cbn [r_history r_dst nDst nSrc]; repeat split;
        try assumption; apply Ha.
    + apply Z.ltb_ge in E.
      set (pre := firstn (Z.to_nat i) (skipn (Z.to_nat (nSrc st)) src)).
      assert (Hpre : len pre = i).
      { apply len_firstn; rewrite len_skipn by exact HS; lia. }
      set (dst' := splice (r_dst st) (nDst st) (pre ++ n)).
      assert (Hl' : len dst' = len (r_dst st))
        by (apply len_splice; rewrite ?len_app; lia).
      eexists; exists (recs ++ [(nSrc st + i, nSrc st + i + len o,
                                 nDst st + i, nDst st + i + len n)]).
      cbn [r_history r_dst nDst nSrc]; rewrite Hh; cbn [add].
      split; [reflexivity |]; split; [now apply aligned_add |].
      split; [rewrite entries_add by exact Ha; rewrite He; now rewrite app_assoc |].
      split.
      * apply recorded_snoc.
        -- apply (recorded_later o n src (r_dst st) _ (nDst st));
             try assumption; try lia.
           apply firstn_before_splice; rewrite ?len_app; lia.
        -- rewrite slice_ok by lia; f_equal.
           replace (nSrc st + i + len o - (nSrc st + i)) with (len o) by lia.
           replace (Z.to_nat (nSrc st + i))
             with (Z.to_nat i + Z.to_nat (nSrc st))%nat by lia.
           rewrite <- skipn_skipn.
           apply HasPrefix_app in Hfound as [t ->].
           apply firstn_exact; unfold len; lia.
        -- unfold dst'; rewrite <- splice_splice by lia.
           rewrite Hpre.
           apply (slice_splice (splice (r_dst st) (nDst st) pre) (nDst st + i) n);
             [lia | rewrite len_splice by lia; lia].
        -- lia.
        -- change 0 with (0 + 0) at 1; lia.
      * rewrite len_app; change (len [_]) with 1; lia.
Qed.

Lemma loop_ledger (o n src : list byte) (atEOF : bool) (before : list entry)
  (fuel : nat) (st res : result) :
  o <> [] -> in_bounds src st -> ledger_inv o n src before st ->
  Transform_loop fuel o n src atEOF st = Ok res ->
  ledger_inv o n src before res.
Proof.
  intros Ho; revert st; induction fuel as [|fuel IH]; intros st Hb Hinv;
    [discriminate |].
  cbn [Transform_loop].
  destruct (body_step o n src atEOF Ho st Hb) as (f & Hf & Hs).
  pose proof (body_ledger o n src atEOF before st f Ho Hb Hinv Hf) as Hf'.
  rewrite Hf; cbn [bind]; destruct f as [a | a].
  - apply IH; [apply Hs | exact Hf'].
  - intros [= <-]; exact Hf'.
Qed.

(** X18.  The entries a call appends locate its replacements in that
    call's buffers: for the [k]-th of them, [src[src0:src1]] is [old],
    [dst[dst0:dst1]] is [new] in the destination as the call leaves it,
    [dst1] lies within the [nDst] bytes produced, and the entry is shifted
    by the replacements before it, [dst0 - src0 = k * (len new - len old)]. *)
Theorem history_entries_locate_replacements (o n : list byte) (h0 : ReplaceHistory)
  (dst src : list byte) (atEOF : bool) :
  aligned h0 ->
  exists res h,
    Transform (NewReplacer o n (Some h0)) dst src atEOF = Ok res /\
    r_history res = Some h /\
    forall k a b c d,
      0 <= k -> At h (len (src0 h0) + k) = Ok (a, b, c, d) ->
      slice src a b = Ok o /\ slice (r_dst res) c d = Ok n /\
      d <= nDst res /\ c - a = k * (len n - len o).
Proof.
  intros Ha.
  destruct (Transform_returns (NewReplacer o n (Some h0)) dst src atEOF)
    as (res & Hres & _).
  assert (Hinv0 : forall d, ledger_inv o n src (entries h0)
                              (mkResult d 0 0 None (Some h0))).
  { intros d; exists h0, []; cbn [r_history r_dst nDst nSrc recorded].
    rewrite app_nil_r; repeat split; try apply Ha; reflexivity. }
  assert (Hinv : ledger_inv o n src (entries h0) res).
  { revert Hres; unfold Transform, NewReplacer; cbn [old new history].
    pose proof (len_nonneg dst); pose proof (len_nonneg src).
    destruct (len src <? len o).
    - intros [= <-]; destruct (Hinv0 dst) as (h & recs & H1 & H2 & H3 & H4 & H5).
      exists h, recs; cbn [r_history r_dst nDst nSrc] in *; repeat split;
        try assumption; apply H2.
    - destruct (len o =? 0) eqn:E.
      + rewrite copy_at_min by lia; cbn [bind]; intros [= <-].
        exists h0, []; cbn [r_history r_dst nDst nSrc recorded].
        rewrite app_nil_r; repeat split; try apply Ha.
        change (len (@nil entry)) with 0; lia.
      + apply loop_ledger; [| | apply Hinv0].
        * intros ->; discriminate.
        * unfold in_bounds; cbn; lia. }
  destruct Hinv as (h & recs & Hh & Ha' & He & Hrec & _).
  exists res, h; split; [exact Hres |]; split; [exact Hh |].
  intros k a b c d Hk Hat.
  apply (At_entries h _ _ Ha') in Hat as [_ Hnth].
  pose proof (length_entries h0 Ha) as Hlen.
  rewrite He, nth_error_app2 in Hnth by (unfold len; lia).
  replace (Z.to_nat (len (src0 h0) + k) - length (entries h0))%nat
    with (Z.to_nat k) in Hnth by (unfold len; lia).
  destruct (recorded_nth o n src (r_dst res) (nDst res) 0 recs _ a b c d Hrec Hnth)
    as (G1 & G2 & G3 & G4).
  repeat split; try assumption.
  rewrite G4; f_equal; lia.
Qed.

Lemma history_entries_locate_replacements_witness :
  slice (bytes_of_string "xabyab") 4 6 = Ok (bytes_of_string "ab") /\
  slice (bytes_of_string "xXYZyXYZ") 5 8 = Ok (bytes_of_string "XYZ") /\
  8 <= 8 /\ 5 - 4 = 1 * (3 - 2).
Proof.
  destruct (history_entries_locate_replacements
              (bytes_of_string "ab") (bytes_of_string "XYZ") NewReplaceHistory
              (make 8) (bytes_of_string "xabyab") true)
    as (res & h & Hres & Hh & Hall).
  - repeat split.
  - vm_compute in Hres; injection Hres as <-.
    cbn [r_history] in Hh; injection Hh as <-.
    apply (Hall 1 4 6 5 8); [lia | reflexivity].
Defined.

Lemma match_from_skip (o s : list byte) (k : nat) (pos : Z) :
  match_from o s k pos = match_from o (skipn k s) 0 (pos + Z.of_nat k).
Proof.
  revert k pos; induction s as [|b s IH]; intros k pos.
  - now rewrite skipn_nil.
  - destruct k as [|k]; [cbn [skipn]; now rewrite Z.add_0_r |].
    cbn [match_from skipn]; rewrite IH; f_equal; lia.
Qed.

Lemma match_from_none (o s : list byte) (pos : Z) :
  Index s o = -1 -> match_from o s 0 pos = [].
Proof.
  revert pos; induction s as [|b s IH]; intros pos; [reflexivity |].
  cbn [Index match_from].
  destruct (HasPrefix (b :: s) o); [discriminate |].
  cbv zeta; destruct (Index s o =? -1) eqn:E.
  - apply Z.eqb_eq in E; intros _; now apply IH.
  - apply Z.eqb_neq in E; pose proof (Index_range s o); lia.
Qed.

Lemma match_from_found (o s : list byte) (pos : Z) :
  o <> [] -> 0 <= Index s o ->
  match_from o s 0 pos
  = (pos + Index s o) ::
    match_from o (skipn (Z.to_nat (Index s o + len o)) s) 0 (pos + Index s o + len o).
Proof.
  intros Ho; revert pos; induction s as [|b s IH]; intros pos.
  - cbn [Index]; rewrite HasPrefix_nil_l by exact Ho; lia.
  - cbn [Index match_from].
    destruct (HasPrefix (b :: s) o) eqn:E.
    + intros _; rewrite Z.add_0_r; f_equal.
      rewrite match_from_skip.
      destruct o as [|a o]; [congruence |].
      unfold len; cbn [length]; rewrite Z.add_0_l.
      replace (Z.to_nat (Z.of_nat (S (length o)))) with (S (length o)) by lia.
      cbn [skipn]; replace (S (length o) - 1)%nat with (length o) by lia.
      f_equal; lia.
    + cbv zeta; destruct (Index s o =? -1) eqn:E1; [lia |].
      apply Z.eqb_neq in E1; intros H.
      destruct (Index_range s o) as [? | [H0 _]]; [contradiction |].
      pose proof (len_nonneg o).
      rewrite (IH (pos + 1) H0).
      replace (Z.to_nat (1 + Index s o + len o))
        with (S (Z.to_nat (Index s o + len o))) by lia.
      cbn [skipn]; f_equal; [lia | f_equal; lia].
Qed.

Lemma loop_positions (o n src : list byte) (atEOF : bool) (fuel : nat)
  (st : result) (h : ReplaceHistory) :
  o <> [] -> in_bounds src st -> len src - nSrc st < Z.of_nat fuel ->
  r_history st = Some h ->
  len (replace_all o n (skipn (Z.to_nat (nSrc st)) src))
    <= len (r_dst st) - nDst st ->
  exists res h', Transform_loop fuel o n src atEOF st = Ok res /\
    r_history res = Some h' /\
    src0 h' = src0 h ++ match_from o (skipn (Z.to_nat (nSrc st)) src) 0 (nSrc st).
Proof.
  intros Ho; revert st h; induction fuel as [|fuel IH]; intros st h Hb Hf Hh Hcap.
  { destruct Hb; lia. }
  pose proof Hb as [HS HD]; pose proof (len_nonneg n) as Hln.
  pose proof (len_pos_of_nonempty o Ho) as Hlo.
  cbn [Transform_loop].
  set (rest := skipn (Z.to_nat (nSrc st)) src) in *.
  assert (Hrest : len rest = len src - nSrc st) by (apply len_skipn; exact HS).
  destruct (Z.eq_dec (Index rest o) (-1)) as [Hi | Hi].
  - rewrite (body_notfound o n src atEOF Ho st Hb Hi); cbn [bind].
    rewrite (match_from_none o rest _ Hi), app_nil_r.
    destruct (_ <? _); eexists; exists h; (split; [reflexivity |]);
      cbn [r_history]; split; try exact Hh; reflexivity.
  - rewrite (body_found o n src atEOF st Hb Hi); cbn [bind]; fold rest.
    destruct (Index_range rest o) as [? | [Hi0 Hi1]]; [contradiction |].
    pose proof (replace_all_found o n rest Ho Hi0) as Hout.
    rewrite (match_from_found o rest (nSrc st) Ho Hi0).
    set (i := Index rest o) in *.
    set (pre := firstn (Z.to_nat i) rest) in *.
    assert (Hpre : len pre = i) by (apply len_firstn; lia).
    assert (Hnext : skipn (Z.to_nat (i + len o)) rest
                    = skipn (Z.to_nat (nSrc st + (i + len o))) src).
    { unfold rest; rewrite skipn_skipn; f_equal; lia. }
    rewrite Hnext in Hout |- *.
    set (out' := replace_all o n (skipn (Z.to_nat (nSrc st + (i + len o))) src)) in *.
    assert (Hlen : len (replace_all o n rest) = i + len n + len out')
      by (rewrite Hout, !len_app; lia).
    pose proof (len_nonneg out') as Hout'.
    replace (len (r_dst st) - nDst st <? i + len n) with false
      by (symmetry; apply Z.ltb_ge; lia).
    rewrite Hh; cbn [add].
    set (st' := mkResult _ _ _ _ _).
    assert (Hx : len (pre ++ n) = i + len n) by (rewrite len_app; lia).
    assert (Hb' : in_bounds src st').
    { unfold in_bounds, st'; cbn [r_dst nDst nSrc]; rewrite len_splice by lia; lia. }
    destruct (IH st'
                (mkHistory (src0 h ++ [nSrc st + i]) (src1 h ++ [nSrc st + i + len o])
                   (dst0 h ++ [nDst st + i]) (dst1 h ++ [nDst st + i + len n]))
                Hb') as (res & h' & Hres & Hh' & Hsrc0).
    + unfold st'; cbn [nSrc]; lia.
    + unfold st'; cbn [r_history]; reflexivity.
    + unfold st'; cbn [r_dst nDst nSrc]; fold out'; rewrite len_splice by lia; lia.
    + exists res, h'; split; [exact Hres |]; split; [exact Hh' |].
      rewrite Hsrc0; unfold st'; cbn [src0 nSrc].
      rewrite <- app_assoc; cbn [app].
      do 3 f_equal; lia.
Qed.

(** X19.  With room in [dst] for the whole result, the entries a call
    appends are one per replacement made: their [src0] coordinates are
    exactly the offsets at which a leftmost, non-overlapping scan of [src]
    finds [old], in order, also when [old] and [new] are equal. *)
Theorem history_records_every_match (o n : list byte) (h : ReplaceHistory)
  (dst src : list byte) (atEOF : bool) :
  o <> [] -> len o <= len src -> len (replace_all o n src) <= len dst ->
  exists res h',
    Transform (NewReplacer o n (Some h)) dst src atEOF = Ok res /\
    r_history res = Some h' /\
    src0 h' = src0 h ++ match_positions o src.
Proof.
  intros Ho Hlen Hcap; pose proof (len_pos_of_nonempty o Ho) as Hlo.
  pose proof (len_nonneg dst) as Hd; pose proof (len_nonneg src) as Hs.
  unfold Transform, NewReplacer; cbn [old new history].
  replace (len src <? len o) with false by (symmetry; apply Z.ltb_ge; lia).
  replace (len o =? 0) with false by (symmetry; apply Z.eqb_neq; lia).
  apply (loop_positions o n src atEOF (S (length src))
           (mkResult dst 0 0 None (Some h)) h Ho).
  - unfold in_bounds; cbn; lia.
  - cbn [nSrc]; unfold len; lia.
  - reflexivity.
  - cbn [r_dst nDst nSrc Z.to_nat skipn]; lia.
Qed.

Lemma history_records_every_match_witness :
  exists res h',
    Transform (NewReplacer (bytes_of_string "aa") (bytes_of_string "aa")
                 (Some NewReplaceHistory))
      (make 8) (bytes_of_string "aaaxaa") true = Ok res /\
    r_history res = Some h' /\ src0 h' = [0; 4].
Proof.
  apply (history_records_every_match (bytes_of_string "aa") (bytes_of_string "aa")
           NewReplaceHistory (make 8) (bytes_of_string "aaaxaa") true).
  - discriminate.
  - vm_compute; discriminate.
  - vm_compute; discriminate.
Defined.
